(** * rhythmtool: the playlist reorder engine

    A shallow embedding of [shuffle] and of the key extraction it relies on
    ([Location.Text], [Location.Split]), for the current program and for the
    earlier in-place variant kept in [rhythmbox.go].

    Go strings are byte strings: they are modelled by [string], whose
    characters are the 256 values of [ascii].  A Go map is a [gmap]; a Go
    slice is a list where only its contents matter, and a pointer into an
    explicit heap of backing arrays where aliasing matters (module [Mem]). *)

From Stdlib Require Import Ascii NArith.
From stdpp Require Import base option list sorting gmap strings.

(** ** Outcomes of a Go call

    A call returns, or ends the process through [log.Fatal] (message and
    exit status 1), or through a run-time panic. *)

Inductive outcome (A : Type) : Type :=
| Ok (a : A)
| Fatal (msg : string)
| Panic (msg : string).
Arguments Ok {A} a.
Arguments Fatal {A} msg.
Arguments Panic {A} msg.

Definition outcome_bind {A B} (f : A → outcome B) (m : outcome A) : outcome B :=
  match m with
  | Ok a => f a
  | Fatal msg => Fatal msg
  | Panic msg => Panic msg
  end.

Global Instance outcome_ret : MRet outcome := λ A, @Ok A.
Global Instance outcome_mbind : MBind outcome := λ A B, @outcome_bind A B.

Global Instance outcome_fmap : FMap outcome := λ A B f m,
  match m with
  | Ok a => Ok (f a)
  | Fatal msg => Fatal msg
  | Panic msg => Panic msg
  end.

Definition returns {A} (m : outcome A) : Prop := ∃ a, m = Ok a.
Definition fails {A} (m : outcome A) : Prop := ¬ returns m.

(** ** Library functions used by the program *)

Module url.

(** [ishex] and [unhex] of net/url. *)
Definition between (lo hi c : ascii) : bool :=
  (N_of_ascii lo <=? N_of_ascii c)%N && (N_of_ascii c <=? N_of_ascii hi)%N.

Definition ishex (c : ascii) : bool :=
  between "0" "9" c || between "a" "f" c || between "A" "F" c.

Definition unhex (c : ascii) : N :=
  if between "0" "9" c then N_of_ascii c - N_of_ascii "0"
  else if between "a" "f" c then N_of_ascii c - N_of_ascii "a" + 10
  else if between "A" "F" c then N_of_ascii c - N_of_ascii "A" + 10
  else 0.

(** The error value: the offending fragment, at most three bytes. *)
Inductive EscapeError : Type := mkEscapeError (fragment : string).

(** First pass of [unescape]: every '%' must be followed by two
    hexadecimal digits; the first one that is not makes the error. *)
Fixpoint malformed (s : string) : option EscapeError :=
  match s with
  | EmptyString => None
  | String c rest =>
      if Ascii.eqb c "%" then
        match rest with
        | String a (String b rest') =>
            if ishex a && ishex b then malformed rest'
            else Some (mkEscapeError (String.substring 0 3 s))
        | _ => Some (mkEscapeError (String.substring 0 3 s))
        end
      else malformed rest
  end.

(** Second pass, in query-component mode: "%XY" is the byte
    [unhex X << 4 | unhex Y], '+' is a space. *)
Fixpoint decode (s : string) : string :=
  match s with
  | EmptyString => EmptyString
  | String c rest =>
      if Ascii.eqb c "%" then
        match rest with
        | String a (String b rest') =>
            String (ascii_of_N (N.lor (N.shiftl (unhex a) 4) (unhex b)))
                   (decode rest')
        | _ => String c (decode rest)
        end
      else if Ascii.eqb c "+" then String " " (decode rest)
      else String c (decode rest)
  end.

Definition QueryUnescape (s : string) : string + EscapeError :=
  match malformed s with
  | Some err => inr err
  | None => inl (decode s)
  end.

End url.

Module filepath.

Definition IsPathSeparator (c : ascii) : bool := Ascii.eqb c "/".

(** [filepath.Split] on Unix: the cut is just after the last separator,
    or at the start when there is none.  The library scans back from the
    end; the recursion below reaches the same cut from the front: the
    directory part of a suffix is empty exactly when the suffix has no
    separator. *)
Fixpoint Split (path : string) : string * string :=
  match path with
  | EmptyString => (EmptyString, EmptyString)
  | String c rest =>
      let '(dir, file) := Split rest in
      match dir with
      | EmptyString =>
          if IsPathSeparator c then (String c EmptyString, file)
          else (EmptyString, String c file)
      | _ => (String c dir, file)
      end
  end.

End filepath.

Module strings.
(** [strings.Compare]: bytewise lexicographic comparison. *)
Definition Compare (a b : string) : comparison := String.compare a b.
End strings.

(** ** Locations *)

Abbreviation Location := string (only parsing).

(** [Location.Text], the same in both programs.  The slice expression
    [escapedStr[:7]] is evaluated before the comparison, and panics when the
    string has fewer than 7 bytes.  Of the messages only the head is kept. *)
Definition Text (l : Location) : outcome string :=
  match url.QueryUnescape l with
  | inr _ => Fatal "unescape"
  | inl escapedStr =>
      if String.length escapedStr <? 7 then
        Panic "slice bounds out of range"
      else if String.eqb (String.substring 0 7 escapedStr) "file://" then
        Ok (String.substring 7 (String.length escapedStr - 7) escapedStr)
      else Ok escapedStr
  end.

(** [Location.Split]. *)
Definition Split (l : Location) : outcome (string * string) :=
  text ← Text l; mret (filepath.Split text).

(** The keys as total functions, for statements about records that are
    known to split. *)
Definition dirOf (l : Location) : string :=
  match Split l with Ok (dir, _) => dir | _ => "" end.
Definition fileOf (l : Location) : string :=
  match Split l with Ok (_, file) => file | _ => "" end.

(** ** The random source

    [math/rand] is abstracted to an oracle: the k-th call of [int31n n]
    on the source returns [draws k mod n], so every value in [0, n) can come
    out, and [consumed] counts the calls made so far. *)

Record Rand : Type := mkRand { draws : nat → nat; consumed : nat }.

Definition int31n (r : Rand) (n : nat) : nat * Rand :=
  (draws r (consumed r) `mod` n, mkRand (draws r) (S (consumed r))).

(** [xs[i], xs[j] = xs[j], xs[i]].  Out of range Go panics; [Shuffle] only
    calls it in range ([swap_in_range] below), where the two writes are
    those of the source. *)
Definition swap {A} (xs : list A) (i j : nat) : list A :=
  match xs !! i, xs !! j with
  | Some xi, Some xj => <[j := xi]> (<[i := xj]> xs)
  | _, _ => xs
  end.

(** [Rand.Shuffle n swap]: Fisher-Yates, [i] running from [n - 1] down
    to 1, [j] drawn in [0, i].  [Shuffle_from k] is the loop with [i = k].
    (Above 2^31 - 1 elements the library draws with [Int63n]; the oracle
    makes no difference between the two.) *)
Fixpoint Shuffle_from {A} (k : nat) (r : Rand) (xs : list A) : list A * Rand :=
  match k with
  | 0 => (xs, r)
  | S k' =>
      let '(j, r) := int31n r (S k) in
      Shuffle_from k' r (swap xs k j)
  end.

Definition Shuffle {A} (r : Rand) (xs : list A) : list A * Rand :=
  Shuffle_from (length xs - 1) r xs.

(** ** Sorting

    Package [sort] promises an ascending rearrangement for a [less] that is
    a strict weak order, and no stability.  The program is modelled over any
    deterministic sort with that contract; [insertionSort], the algorithm
    the package runs on short slices, is one. *)

Class StrictWeakOrder {A} (less : A → A → bool) : Prop := {
  less_asym : ∀ a b, less a b = true → less b a = false;
  less_negtrans : ∀ a b c, less a b = false → less b c = false → less a c = false
}.

Record Sorter : Type := mkSorter {
  sort_by : ∀ A : Type, (A → A → bool) → list A → list A;
  sort_by_perm : ∀ A less l, sort_by A less l ≡ₚ l;
  sort_by_sorted : ∀ A less l, StrictWeakOrder less →
    StronglySorted (λ a b, less b a = false) (sort_by A less l)
}.
Arguments sort_by _ {A} less l.

(** [insertionSort]: each element in turn moves left while it is less than
    its left neighbour.  [prefix] is the sorted part, rightmost first. *)
Fixpoint sink {A} (less : A → A → bool) (x : A) (prefix : list A) : list A :=
  match prefix with
  | [] => [x]
  | p :: prefix' => if less x p then p :: sink less x prefix' else x :: prefix
  end.

Definition insertionSort {A} (less : A → A → bool) (l : list A) : list A :=
  reverse (foldl (λ prefix x, sink less x prefix) [] l).

(** ** The reorder engine *)

Section Engine.
Context (srt : Sorter).

(** [sort.Strings]. *)
Definition sort_Strings (x : list string) : list string :=
  sort_by srt String.ltb x.

(** [sort.Slice x less]; [less] compares the elements at two indices, that
    is, two elements. *)
Definition sort_Slice {A} (less : A → A → bool) (x : list A) : list A :=
  sort_by srt less x.

(** The [less] closure of [shuffle]: [_, fileI := thisDir[i].Split()],
    the same for [j], then [strings.Compare fileI fileJ == -1].  The
    elements compared are members of a group, which the first loop has
    already split, so [Split] returns on them ([collect_grouped]) and
    [fileOf] is its second result. *)
Definition less_file (a b : Location) : bool :=
  let fileI := fileOf a in
  let fileJ := fileOf b in
  bool_decide (strings.Compare fileI fileJ = Lt).

(** First loop of [shuffle]: [all] maps a directory to its locations,
    [dirs] lists the directories in the order they are first met.  A
    missing key reads as the nil slice ([!!!]). *)
Fixpoint collect (locations : list Location)
    (all : gmap string (list Location)) (dirs : list string)
    : outcome (gmap string (list Location) * list string) :=
  match locations with
  | [] => Ok (all, dirs)
  | l :: locations' =>
      '(dir, _) ← Split l;
      let dirs := if decide (is_Some (all !! dir)) then dirs else dirs ++ [dir] in
      collect locations' (<[dir := all !!! dir ++ [l]]> all) dirs
  end.

(** The loops over [dirs] that reorder each group.  [thisDir := all[dir]]
    shares its backing array with the map entry, so reordering [thisDir]
    in place is seen through [all[dir]]; for a key that is absent
    [thisDir] is nil and nothing happens. *)
Definition shuffle_each (all : gmap string (list Location)) (rnd : Rand)
    (dirs : list string) : gmap string (list Location) * Rand :=
  foldl (λ '(all, rnd) dir,
           let '(thisDir, rnd) := Shuffle rnd (all !!! dir) in
           (alter (λ _, thisDir) dir all, rnd))
        (all, rnd) dirs.

Definition sort_each (all : gmap string (list Location)) (dirs : list string)
    : gmap string (list Location) :=
  foldl (λ all dir, alter (sort_Slice less_file) dir all) all dirs.

(** Last loop: [result = append(result, all[dir]...)]. *)
Definition flatten (all : gmap string (list Location)) (dirs : list string)
    : list Location :=
  foldl (λ result dir, result ++ all !!! dir) [] dirs.

(** [shuffle] of the current program: it returns the reordered copy, and
    the random source as it leaves it. *)
Definition shuffle (locations : list Location) (shuffleDirs shuffleInDir : bool)
    (rnd : Rand) : outcome (list Location * Rand) :=
  '(all, dirs) ← collect locations ∅ [];
  let '(dirs, rnd) :=
    if shuffleDirs then Shuffle rnd dirs else (sort_Strings dirs, rnd) in
  let '(all, rnd) :=
    if shuffleInDir then shuffle_each all rnd dirs
    else (sort_each all dirs, rnd) in
  let result := flatten all dirs in
  if decide (length result ≠ length locations) then
    Fatal "len(result) != len(locations)"
  else Ok (result, rnd).

(** *** The in-place variant of rhythmbox.go *)

(** Its first loop appends the directory of every location to [dirs]. *)
Fixpoint collect_all (locations : list Location)
    (all : gmap string (list Location)) (dirs : list string)
    : outcome (gmap string (list Location) * list string) :=
  match locations with
  | [] => Ok (all, dirs)
  | l :: locations' =>
      '(dir, _) ← Split l;
      collect_all locations' (<[dir := all !!! dir ++ [l]]> all) (dirs ++ [dir])
  end.

(** The builtin [copy dst src]: the first [min (len dst) (len src)]
    elements of [dst] are overwritten. *)
Definition copy {A} (dst src : list A) : list A :=
  take (length dst) src ++ drop (length src) dst.

(** The variant returns nothing; the model returns the contents of the
    caller's slice when it is done. *)
Definition shuffle_in_place (locations : list Location)
    (shuffleDirs shuffleInDir : bool) (rnd : Rand)
    : outcome (list Location * Rand) :=
  '(all, dirs) ← collect_all locations ∅ [];
  let '(dirs, rnd) :=
    if shuffleDirs then Shuffle rnd dirs else (sort_Strings dirs, rnd) in
  let '(all, rnd) :=
    if shuffleInDir then shuffle_each all rnd dirs
    else (sort_each all dirs, rnd) in
  let result := flatten all dirs in
  Ok (copy locations result, rnd).

End Engine.

(** ** Notions used to state the properties *)

(** [s] contains a path separator. *)
Fixpoint has_separator (s : string) : bool :=
  match s with
  | EmptyString => false
  | String c s' => filepath.IsPathSeparator c || has_separator s'
  end.

(** [s] is written without escapes: it holds no '%' and no '+'. *)
Fixpoint unescaped (s : string) : bool :=
  match s with
  | EmptyString => true
  | String c s' =>
      negb (Ascii.eqb c "%") && negb (Ascii.eqb c "+") && unescaped s'
  end.

(** The keys of a sequence of records as its contiguous runs show them:
    each run of equal neighbours counts once. *)
Fixpoint runs (keys : list string) : list string :=
  match keys with
  | [] => []
  | k :: keys' =>
      if decide (head keys' = Some k) then runs keys' else k :: runs keys'
  end.

(** The description of the keys in words: [rest] is [decoded] without its
    scheme prefix when it has one, and [dir], [file] cut [rest] just after
    its last separator. *)
Definition keys_of (decoded dir file : string) : Prop :=
  ∃ rest,
    (∀ r, decoded = "file://" +:+ r → rest = r) ∧
    ((∀ r, decoded ≠ "file://" +:+ r) → rest = decoded) ∧
    rest = dir +:+ file ∧ has_separator file = false ∧
    (dir = "" ∨ ∃ d, dir = d +:+ "/").

(** Decoding in words, to be compared with what [url.QueryUnescape]
    computes.  A hexadecimal digit stands for its place among the sixteen
    digits, in either case.  [unescape_with plus] reads a string from left
    to right: "%XY", with X and Y hexadecimal digits, is the byte of value
    16 X + Y; '+' is [plus]; every other byte is itself; a '%' that is not
    followed by two hexadecimal digits has no decoding.  Percent-decoding
    leaves '+' as it is; the decoding of a URL query component reads it as
    a space. *)
Module described.

Fixpoint position (c : ascii) (digits : string) : option N :=
  match digits with
  | EmptyString => None
  | String d digits' =>
      if Ascii.eqb c d then Some 0%N else N.succ <$> position c digits'
  end.

Definition hex_digit (c : ascii) : option N :=
  match position c "0123456789abcdef" with
  | Some v => Some v
  | None => position c "0123456789ABCDEF"
  end.

Fixpoint unescape_with (plus : ascii) (s : string) : option string :=
  match s with
  | EmptyString => Some EmptyString
  | String c rest =>
      if Ascii.eqb c "%" then
        match rest with
        | String x (String y rest') =>
            match hex_digit x, hex_digit y with
            | Some hi, Some lo =>
                String (ascii_of_N (16 * hi + lo)) <$> unescape_with plus rest'
            | _, _ => None
            end
        | _ => None
        end
      else if Ascii.eqb c "+" then String plus <$> unescape_with plus rest
      else String c <$> unescape_with plus rest
  end.

Definition percent_decode : string → option string := unescape_with "+".
Definition query_decode : string → option string := unescape_with " ".

End described.

(** What the loop has built once it has gone through [seen]. *)
Record grouped (seen : list Location)
    (all : gmap string (list Location)) (dirs : list string) : Prop := {
  grouped_members : ∀ d, all !!! d = filter (λ l, dirOf l = d) seen;
  grouped_keys : ∀ d, is_Some (all !! d) ↔ d ∈ dirs;
  grouped_dirs : ∀ d, d ∈ dirs ↔ d ∈ dirOf <$> seen;
  grouped_NoDup : NoDup dirs
}.

(** The result is made of one block per directory: [dirs] are the
    directories in their final order, [g d] the final contents of the
    group of [d]. *)
Record blocks (locs : list Location) (sd si : bool) (rnd rnd' : Rand)
    (out : list Location) (dirs : list string) (g : string → list Location)
    : Prop := {
  blocks_out : out = dirs ≫= g;
  blocks_NoDup : NoDup dirs;
  blocks_dirs : ∀ d, d ∈ dirs ↔ d ∈ dirOf <$> locs;
  blocks_group : ∀ d, g d ≡ₚ filter (λ l, dirOf l = d) locs;
  blocks_split : Forall (λ l, returns (Split l)) locs;
  blocks_dirs_sorted : sd = false → StronglySorted String.le dirs;
  blocks_group_sorted : si = false →
    ∀ d, StronglySorted (λ a b, less_file b a = false) (g d);
  blocks_rnd : sd = false → si = false → rnd' = rnd
}.

(** * The engine on a heap of backing arrays *)

Module Mem.

(** The backing arrays of the []Location slices, addressed by their rank of
    allocation; the prefix that exists when [shuffle] is called holds the
    caller's arrays, the array of [locations] among them.  [dirs], a slice
    of strings that never leaves the call and has a single header, stays a
    list. *)
Abbreviation heap := (list (list Location)).

(** A slice header.  A slice of capacity 0, such as nil, owns no array. *)
Record slice : Type := mkSlice { ptr : nat; len : nat; cap : nat }.

Definition nil : slice := mkSlice 0 0 0.
Global Instance slice_inhabited : Inhabited slice := populate nil.

Definition array (h : heap) (s : slice) : list Location := h !!! ptr s.

(** The elements of a slice. *)
Definition read (h : heap) (s : slice) : list Location :=
  take (len s) (array h s).

(** The elements of [s] overwritten by [xs], as many: the effect of
    reordering [s] in place. *)
Definition store (h : heap) (s : slice) (xs : list Location) : heap :=
  <[ptr s := xs ++ drop (len s) (array h s)]> h.

Section Runtime.
Context (srt : Sorter).
(** What the run time adds to the capacity asked for when it reallocates. *)
Context (spare : nat → nat → nat).

(** [append(s, xs...)]: within capacity the elements are written after
    those of [s] in its array; otherwise a new array is allocated, that
    takes the elements of [s] and [xs], and [s] is left alone. *)
Definition append (h : heap) (s : slice) (xs : list Location) : heap * slice :=
  let n := len s + length xs in
  if decide (n ≤ cap s) then
    (<[ptr s := read h s ++ xs ++ drop n (array h s)]> h,
     mkSlice (ptr s) n (cap s))
  else
    let c := n + spare (cap s) n in
    (h ++ [read h s ++ xs ++ replicate (c - n) ""],
     mkSlice (length h) n c).

(** First loop: [for _, l := range locations], the element read from the
    array at each round, [todo] rounds from index [i] on. *)
Fixpoint collect (todo i : nat) (h : heap) (locations : slice)
    (all : gmap string slice) (dirs : list string)
    : outcome (heap * gmap string slice * list string) :=
  match todo with
  | 0 => Ok (h, all, dirs)
  | S todo' =>
      let l := array h locations !!! i in
      '(dir, _) ← Split l;
      let dirs := if decide (is_Some (all !! dir)) then dirs else dirs ++ [dir] in
      let '(h, s) := append h (all !!! dir) [l] in
      collect todo' (S i) h locations (<[dir := s]> all) dirs
  end.

(** [thisDir := all[dir]] copies the header: the reordering goes to the
    array that the map entry points to. *)
Definition shuffle_each (h : heap) (all : gmap string slice) (rnd : Rand)
    (dirs : list string) : heap * Rand :=
  foldl (λ '(h, rnd) dir,
           let thisDir := all !!! dir in
           let '(xs, rnd) := Shuffle rnd (read h thisDir) in
           (store h thisDir xs, rnd))
        (h, rnd) dirs.

Definition sort_each (h : heap) (all : gmap string slice) (dirs : list string)
    : heap :=
  foldl (λ h dir,
           let thisDir := all !!! dir in
           store h thisDir (sort_Slice srt less_file (read h thisDir)))
        h dirs.

Definition flatten (h : heap) (all : gmap string slice) (dirs : list string)
    : heap * slice :=
  foldl (λ '(h, result) dir, append h result (read h (all !!! dir)))
        (h, nil) dirs.

(** [shuffle] of the current program, on the heap: it returns the heap as
    it leaves it, the header of the result and the random source. *)
Definition shuffle (h : heap) (locations : slice)
    (shuffleDirs shuffleInDir : bool) (rnd : Rand)
    : outcome (heap * slice * Rand) :=
  '(h, all, dirs) ← collect (len locations) 0 h locations ∅ [];
  let '(dirs, rnd) :=
    if shuffleDirs then Shuffle rnd dirs else (sort_Strings srt dirs, rnd) in
  let '(h, rnd) :=
    if shuffleInDir then shuffle_each h all rnd dirs
    else (sort_each h all dirs, rnd) in
  let '(h, result) := flatten h all dirs in
  if decide (len result ≠ len locations) then
    Fatal "len(result) != len(locations)"
  else Ok (h, result, rnd).

End Runtime.

(** A slice the caller can hand over: a header into one of its arrays. *)
Definition valid (h : heap) (s : slice) : Prop :=
  ptr s < length h ∧ len s ≤ length (array h s).

Section Invariants.
(** The heap when [shuffle] is called. *)
Context (h0 : heap).

(** [s] has an array of its own, allocated since the call. *)
Record owned (h : heap) (s : slice) : Prop := {
  owned_new : length h0 ≤ ptr s;
  owned_ptr : ptr s < length h;
  owned_len : len s ≤ cap s;
  owned_cap : length (array h s) = cap s
}.

Definition empty (s : slice) : Prop := len s = 0 ∧ cap s = 0.

(** The map of headers [allm] on heap [h] stands for the map of sequences
    [allf]: same keys, each header owns its array, which holds the
    sequence, and no two headers share an array. *)
Record rep (h : heap) (allm : gmap string slice)
    (allf : gmap string (list Location)) : Prop := {
  rep_prefix : h0 `prefix_of` h;
  rep_dom : ∀ d, is_Some (allm !! d) ↔ is_Some (allf !! d);
  rep_owned : ∀ d s, allm !! d = Some s → owned h s ∧ read h s = allf !!! d;
  rep_sep : ∀ d1 d2 s1 s2,
    allm !! d1 = Some s1 → allm !! d2 = Some s2 → ptr s1 = ptr s2 → d1 = d2
}.

End Invariants.

(** Two outcomes of the same kind, with related results. *)
Definition outcome_rel {A B} (R : A → B → Prop)
    (m1 : outcome A) (m2 : outcome B) : Prop :=
  match m1, m2 with
  | Ok a, Ok b => R a b
  | Fatal x, Fatal y => x = y
  | Panic x, Panic y => x = y
  | _, _ => False
  end.

End Mem.

(** ** Examples used below *)

Definition playlist : list Location :=
  ["file:///B/song2"; "file:///A/song1"; "file:///B/song1"; "file:///A/song2"].

Definition seed0 : Rand := mkRand (λ k, 7 * k + 3) 0.
Definition seed1 : Rand := mkRand (λ k, k * k + 1) 5.

Definition two_dirs : list Location :=
  ["file:///A/1"; "file:///A/2"; "file:///B/1"].

(** * Properties *)

(** ** Insertion sort meets the contract of package sort *)

Lemma sink_perm {A} (less : A → A → bool) x prefix :
  sink less x prefix ≡ₚ x :: prefix.
Proof.
  induction prefix as [|p prefix IH]; simpl; [done|].
  destruct (less x p); [|done].
  rewrite IH. apply Permutation_swap.
Qed.

Lemma sink_sorted {A} (less : A → A → bool) `{!StrictWeakOrder less} x prefix :
  StronglySorted (λ p q, less p q = false) prefix →
  StronglySorted (λ p q, less p q = false) (sink less x prefix).
Proof.
  induction 1 as [|p prefix Hs IH Hp]; simpl.
  { repeat constructor. }
  destruct (less x p) eqn:Hxp.
  - constructor; [done|].
    rewrite sink_perm. constructor; [|done].
    by apply less_asym.
  - constructor; [by constructor|].
    constructor; [done|].
    eapply Forall_impl; [exact Hp|].
    intros q Hq. by eapply less_negtrans.
Qed.

Lemma StronglySorted_reverse {A} (R : relation A) l :
  StronglySorted R l → StronglySorted (flip R) (reverse l).
Proof.
  induction 1 as [|x l Hs IH Hx]; [constructor|].
  rewrite reverse_cons. apply StronglySorted_app_2; [|done|repeat constructor].
  intros x1 x2 Hx1 ->%list_elem_of_singleton.
  rewrite Forall_forall in Hx. apply Hx. by apply elem_of_reverse.
Qed.

Lemma insertionSort_perm {A} (less : A → A → bool) l :
  insertionSort less l ≡ₚ l.
Proof.
  unfold insertionSort. rewrite reverse_Permutation.
  assert (∀ acc, foldl (λ prefix x, sink less x prefix) acc l ≡ₚ l ++ acc) as H.
  { induction l as [|x l IH]; intros acc; simpl; [done|].
    rewrite IH, sink_perm. by rewrite Permutation_middle. }
  by rewrite H, app_nil_r.
Qed.

Lemma insertionSort_sorted {A} (less : A → A → bool) l :
  StrictWeakOrder less →
  StronglySorted (λ a b, less b a = false) (insertionSort less l).
Proof.
  intros Hless. unfold insertionSort.
  apply (StronglySorted_reverse (λ p q, less p q = false)).
  assert (∀ acc, StronglySorted (λ p q, less p q = false) acc →
    StronglySorted (λ p q, less p q = false)
      (foldl (λ prefix x, sink less x prefix) acc l)) as H.
  { induction l as [|x l IH]; intros acc Hacc; simpl; [done|].
    by apply IH, sink_sorted. }
  apply H. constructor.
Qed.

(** The sort the examples run. *)
Definition go_sort : Sorter :=
  mkSorter (@insertionSort) (@insertionSort_perm) (@insertionSort_sorted).

(** ** The random source and Fisher-Yates *)

Lemma int31n_bound r n : 0 < n → (int31n r n).1 < n.
Proof. intros Hn. simpl. apply Nat.mod_upper_bound. lia. Qed.

Lemma int31n_consumed r n : consumed (int31n r n).2 = S (consumed r).
Proof. done. Qed.

Lemma insert_swap_out {A} (xs : list A) j x y :
  xs !! j = Some y → y :: <[j := x]> xs ≡ₚ x :: xs.
Proof.
  revert j. induction xs as [|z xs IH]; intros [|j] Hj; simplify_eq/=.
  - apply Permutation_swap.
  - etrans; [apply perm_swap|]. etrans; [|apply perm_swap].
    by apply perm_skip, IH.
Qed.

Lemma swap_perm {A} (xs : list A) i j : swap xs i j ≡ₚ xs.
Proof.
  unfold swap.
  destruct (xs !! i) as [xi|] eqn:Hi; [|done].
  destruct (xs !! j) as [xj|] eqn:Hj; [|done].
  revert i j Hi Hj.
  induction xs as [|x xs IH]; intros [|i] [|j] Hi Hj; simplify_eq/=.
  - done.
  - by apply insert_swap_out.
  - by apply insert_swap_out.
  - by rewrite IH.
Qed.

Lemma swap_length {A} (xs : list A) i j : length (swap xs i j) = length xs.
Proof. apply Permutation_length, swap_perm. Qed.

(** The indices [Shuffle] hands to [swap] are in range, and stay so from
    one round to the next, so the index panic of the source is out of
    reach there. *)
Lemma swap_in_range {A} (xs : list A) k r :
  k < length xs →
  (int31n r (S k)).1 ≤ k ∧
  length (swap xs k (int31n r (S k)).1) = length xs.
Proof.
  intros Hk. split; [|apply swap_length].
  pose proof (int31n_bound r (S k)). lia.
Qed.

Lemma Shuffle_from_perm {A} k r (xs : list A) : (Shuffle_from k r xs).1 ≡ₚ xs.
Proof.
  revert r xs. induction k as [|k IH]; intros r xs; [done|].
  cbn [Shuffle_from]. destruct (int31n r (S (S k))) as [j r'].
  by rewrite IH, swap_perm.
Qed.

Lemma Shuffle_perm {A} r (xs : list A) : (Shuffle r xs).1 ≡ₚ xs.
Proof. apply Shuffle_from_perm. Qed.

Lemma Shuffle_from_consumed {A} k r (xs : list A) :
  consumed (Shuffle_from k r xs).2 = consumed r + k ∧
  draws (Shuffle_from k r xs).2 = draws r.
Proof.
  revert r xs. induction k as [|k IH]; intros r xs; [simpl; split; [lia|done]|].
  cbn [Shuffle_from]. destruct (int31n r (S (S k))) as [j r'] eqn:Hd.
  destruct (IH r' (swap xs (S k) j)) as [-> ->].
  injection Hd as _ <-. simpl. split; [lia|done].
Qed.

(** ** Key extraction *)

Lemma Split_dirOf l dir file : Split l = Ok (dir, file) → dirOf l = dir.
Proof. unfold dirOf. by intros ->. Qed.

Lemma Split_fileOf l dir file : Split l = Ok (dir, file) → fileOf l = file.
Proof. unfold fileOf. by intros ->. Qed.

Lemma Split_returns l : returns (Split l) → Split l = Ok (dirOf l, fileOf l).
Proof. intros [[dir file] H]. unfold dirOf, fileOf. by rewrite H. Qed.

Global Instance returns_dec {A} (m : outcome A) : Decision (returns m).
Proof.
  destruct m as [a| |]; [left; by exists a|right..]; by intros [? ?].
Defined.

(** ** The first loop: grouping *)

Lemma grouped_start : grouped [] ∅ [].
Proof.
  split.
  - intros d. by rewrite lookup_total_empty.
  - intros d. rewrite lookup_empty. split; [by intros [? ?]|by intros ?%elem_of_nil].
  - done.
  - constructor.
Qed.

Lemma grouped_step seen all dirs l dir file :
  Split l = Ok (dir, file) →
  grouped seen all dirs →
  grouped (seen ++ [l]) (<[dir := all !!! dir ++ [l]]> all)
    (if decide (is_Some (all !! dir)) then dirs else dirs ++ [dir]).
Proof.
  intros Hl%Split_dirOf [Hm Hk Hd Hn]. split.
  - intros d. rewrite filter_app. destruct (decide (dir = d)) as [->|Hne].
    + rewrite lookup_total_insert_eq, Hm. f_equal.
      rewrite filter_cons, decide_True by done. done.
    + rewrite lookup_total_insert_ne, Hm by done.
      rewrite filter_cons, decide_False by congruence.
      by rewrite filter_nil, app_nil_r.
  - intros d. rewrite lookup_insert_is_Some. case_decide as Hin.
    + rewrite <-Hk. clear -Hin.
      destruct (decide (dir = d)) as [->|]; intuition congruence.
    + rewrite elem_of_app, list_elem_of_singleton, <-Hk. clear.
      destruct (decide (dir = d)); intuition congruence.
  - intros d. rewrite fmap_app, elem_of_app. simpl.
    rewrite list_elem_of_singleton, <-Hd, Hl. case_decide as Hin.
    + apply Hk in Hin. clear -Hin. intuition congruence.
    + rewrite elem_of_app, list_elem_of_singleton. clear. intuition congruence.
  - case_decide as Hin; [done|].
    apply NoDup_app. split_and!; [done| |apply NoDup_singleton].
    intros d Hd' ->%list_elem_of_singleton. by apply Hin, Hk.
Qed.

(** ** String order *)

Lemma ltb_false_le a b : String.ltb a b = false ↔ String.le b a.
Proof.
  unfold String.le, String.leb, String.ltb.
  rewrite (String.compare_antisym a b).
  destruct (String.compare b a); simpl; split; done.
Qed.

Global Instance ltb_strict_weak : StrictWeakOrder String.ltb.
Proof.
  split.
  - intros a b Hab. unfold String.ltb in *.
    rewrite String.compare_antisym.
    by destruct (String.compare a b).
  - intros a b c. rewrite !ltb_false_le. intros Hba Hcb. by trans b.
Qed.

Lemma less_file_ltb a b : less_file a b = String.ltb (fileOf a) (fileOf b).
Proof.
  unfold less_file, strings.Compare, String.ltb.
  destruct (String.compare (fileOf a) (fileOf b)); by case_bool_decide.
Qed.

Global Instance less_file_strict_weak : StrictWeakOrder less_file.
Proof.
  split.
  - intros a b. rewrite !less_file_ltb. apply less_asym.
  - intros a b c. rewrite !less_file_ltb. apply less_negtrans.
Qed.

(** ** The loops of the engine *)

Lemma collect_grouped rest seen all dirs all' dirs' :
  grouped seen all dirs →
  collect rest all dirs = Ok (all', dirs') →
  grouped (seen ++ rest) all' dirs' ∧ Forall (λ l, returns (Split l)) rest.
Proof.
  revert seen all dirs. induction rest as [|l rest IH]; intros seen all dirs Hg.
  - intros [= <- <-]. by rewrite app_nil_r.
  - cbn [collect]. destruct (Split l) as [[dir file]| |] eqn:Hl; [|done..].
    intros Hc. apply (IH (seen ++ [l])) in Hc as [Hg' Hr].
    + rewrite <-app_assoc in Hg'. split; [done|].
      constructor; [|done]. rewrite Hl. by eexists.
    + by eapply grouped_step.
Qed.

Lemma collect_returns rest all dirs :
  Forall (λ l, returns (Split l)) rest → returns (collect rest all dirs).
Proof.
  intros Hr. revert all dirs.
  induction Hr as [|l rest [[dir file] Hl] _ IH]; intros all dirs.
  - by eexists.
  - cbn [collect]. rewrite Hl. apply IH.
Qed.

Lemma flatten_bind (all : gmap string (list Location)) dirs :
  flatten all dirs = dirs ≫= (λ d, all !!! d).
Proof.
  unfold flatten.
  assert (∀ acc, foldl (λ result dir, result ++ all !!! dir) acc dirs
                 = acc ++ (dirs ≫= (λ d, all !!! d))) as H.
  { induction dirs as [|d dirs IH]; intros acc; simpl.
    - by rewrite app_nil_r.
    - by rewrite IH, app_assoc. }
  apply H.
Qed.

Lemma foldl_alter_lookup {V} (f : V → V) (all : gmap string V) dirs d :
  NoDup dirs →
  foldl (λ all dir, alter f dir all) all dirs !! d
  = if decide (d ∈ dirs) then f <$> all !! d else all !! d.
Proof.
  intros Hn. revert all.
  induction Hn as [|x dirs Hx Hn IH]; intros all; cbn [foldl].
  { destruct (decide (d ∈ [])) as [Hd|Hd]; [by apply elem_of_nil in Hd|done]. }
  rewrite IH. destruct (decide (d = x)) as [->|Hne].
  - destruct (decide (x ∈ dirs)) as [|_]; [done|].
    destruct (decide (x ∈ x :: dirs)) as [_|Hd]; [|by destruct Hd; left].
    apply lookup_alter_eq.
  - rewrite lookup_alter_ne by done.
    destruct (decide (d ∈ dirs)) as [Hin|Hin];
      destruct (decide (d ∈ x :: dirs)) as [Hin'|Hin']; try done.
    + destruct Hin'. by right.
    + by apply elem_of_cons in Hin' as [?|?].
Qed.

Lemma sort_each_lookup srt all dirs d :
  NoDup dirs →
  sort_each srt all dirs !! d
  = if decide (d ∈ dirs) then sort_Slice srt less_file <$> all !! d
    else all !! d.
Proof. apply foldl_alter_lookup. Qed.

Lemma sort_each_perm srt all dirs d :
  sort_each srt all dirs !!! d ≡ₚ all !!! d ∧
  (is_Some (sort_each srt all dirs !! d) ↔ is_Some (all !! d)).
Proof.
  unfold sort_each. revert all.
  induction dirs as [|x dirs IH]; intros all; simpl; [done|].
  destruct (IH (alter (sort_Slice srt less_file) x all)) as [-> ->].
  rewrite lookup_alter_is_Some. split; [|done].
  rewrite lookup_total_alter. case_decide as Hx; [subst x|done].
  rewrite lookup_total_alt.
  destruct (all !! d); simpl; [apply sort_by_perm|done].
Qed.

Lemma shuffle_each_perm all rnd dirs d :
  (shuffle_each all rnd dirs).1 !!! d ≡ₚ all !!! d ∧
  (is_Some ((shuffle_each all rnd dirs).1 !! d) ↔ is_Some (all !! d)).
Proof.
  unfold shuffle_each. revert all rnd.
  induction dirs as [|x dirs IH]; intros all rnd; simpl; [done|].
  destruct (Shuffle rnd (all !!! x)) as [thisDir rnd'] eqn:Hs.
  destruct (IH (alter (λ _, thisDir) x all) rnd') as [-> ->].
  rewrite lookup_alter_is_Some. split; [|done].
  rewrite lookup_total_alter. case_decide as Hx; [subst x|done].
  pose proof (Shuffle_perm rnd (all !!! d)) as Hp. rewrite Hs in Hp.
  rewrite lookup_total_alt in Hp |- *.
  destruct (all !! d); simpl in *; [done|].
  by apply Permutation_nil_r in Hp as ->.
Qed.

(** ** Groups partition the input *)

Lemma filter_key_split (key : Location → string) d ds locs :
  d ∉ ds →
  filter (λ l, key l = d) locs ++ filter (λ l, key l ∈ ds) locs
  ≡ₚ filter (λ l, key l ∈ d :: ds) locs.
Proof.
  intros Hd. induction locs as [|l locs IH]; [done|].
  rewrite !filter_cons.
  destruct (decide (key l = d)) as [Hl|Hl].
  - rewrite decide_False by (by rewrite Hl).
    rewrite decide_True by (rewrite Hl; left).
    simpl. by rewrite IH.
  - destruct (decide (key l ∈ ds)) as [Hin|Hin].
    + rewrite decide_True by (by right).
      by rewrite <-Permutation_middle, IH.
    + rewrite decide_False; [done|].
      by intros [?|?]%elem_of_cons.
Qed.

Lemma bind_filter_perm (key : Location → string) ds locs :
  NoDup ds →
  ds ≫= (λ d, filter (λ l, key l = d) locs) ≡ₚ filter (λ l, key l ∈ ds) locs.
Proof.
  induction 1 as [|d ds Hd Hn IH].
  - simpl. induction locs as [|l locs IHl]; [done|].
    rewrite filter_cons, decide_False by apply not_elem_of_nil. done.
  - rewrite bind_cons, IH. by apply filter_key_split.
Qed.

Lemma filter_all {A} (P : A → Prop) `{!∀ x, Decision (P x)} l :
  Forall P l → filter P l = l.
Proof.
  induction 1 as [|x l Hx _ IH]; [done|].
  by rewrite filter_cons, decide_True, IH.
Qed.

Lemma filter_none {A} (P : A → Prop) `{!∀ x, Decision (P x)} l :
  Forall (λ x, ¬ P x) l → filter P l = [].
Proof.
  induction 1 as [|x l Hx _ IH]; [done|].
  by rewrite filter_cons, decide_False, IH.
Qed.

Lemma bind_ext_perm {A B} (f g : A → list B) l :
  (∀ x, f x ≡ₚ g x) → l ≫= f ≡ₚ l ≫= g.
Proof.
  intros Hfg. induction l as [|x l IH]; [done|].
  by rewrite !bind_cons, Hfg, IH.
Qed.

(** Whatever the two reorderings did, as long as they permuted the
    directories and each group, the flattened result is a permutation of
    the input. *)
Lemma flatten_perm locs all dirs all2 dirs2 :
  grouped locs all dirs →
  dirs2 ≡ₚ dirs →
  (∀ d, all2 !!! d ≡ₚ all !!! d) →
  flatten all2 dirs2 ≡ₚ locs.
Proof.
  intros [Hm Hk Hd Hn] Hdirs Hall.
  rewrite flatten_bind, Hdirs.
  rewrite (bind_ext_perm _ (λ d, filter (λ l, dirOf l = d) locs)).
  - rewrite bind_filter_perm by done.
    rewrite filter_all; [done|].
    apply Forall_forall. intros l Hl. apply Hd. by apply list_elem_of_fmap_2.
  - intros d. by rewrite Hall, Hm.
Qed.

Lemma StronglySorted_weaken {A} (R1 R2 : relation A) l :
  (∀ a b, a ∈ l → b ∈ l → R1 a b → R2 a b) →
  StronglySorted R1 l → StronglySorted R2 l.
Proof.
  intros HR Hs. induction Hs as [|x l Hs IH Hx]; constructor.
  - apply IH. intros a b Ha Hb. apply HR; by right.
  - rewrite Forall_forall in Hx |- *. intros y Hy.
    apply HR; [by left|by right|by apply Hx].
Qed.

(** ** The shape of the result *)

Section EngineProps.
Context (srt : Sorter).

Lemma sort_Strings_sorted dirs : StronglySorted String.le (sort_Strings srt dirs).
Proof.
  eapply StronglySorted_weaken; [|by apply (sort_by_sorted srt), ltb_strict_weak].
  intros a b _ _. by rewrite ltb_false_le.
Qed.

Lemma shuffle_blocks locs sd si rnd out rnd' :
  shuffle srt locs sd si rnd = Ok (out, rnd') →
  ∃ dirs g, blocks locs sd si rnd rnd' out dirs g.
Proof.
  unfold shuffle. intros H.
  destruct (collect locs ∅ []) as [[all dirs]| |] eqn:Hc; [|done..].
  apply (collect_grouped _ []) in Hc as [Hg Hsplit]; [|apply grouped_start].
  simpl in Hg, H.
  destruct (if sd then Shuffle rnd dirs else (sort_Strings srt dirs, rnd))
    as [dirs2 rnd2] eqn:Hd2.
  destruct (if si then shuffle_each all rnd2 dirs2
            else (sort_each srt all dirs2, rnd2)) as [all2 rnd3] eqn:Ha2.
  case_decide as Hlen; [done|]. injection H as <- <-.
  assert (dirs2 ≡ₚ dirs) as Hdirs.
  { destruct sd.
    - pose proof (Shuffle_perm rnd dirs) as Hp. by rewrite Hd2 in Hp.
    - injection Hd2 as <- <-. apply sort_by_perm. }
  assert (∀ d, all2 !!! d ≡ₚ all !!! d) as Hall.
  { intros d. destruct si.
    - pose proof (shuffle_each_perm all rnd2 dirs2 d) as [Hp _].
      by rewrite Ha2 in Hp.
    - injection Ha2 as <- <-. apply sort_each_perm. }
  destruct Hg as [Hm Hk Hd Hn].
  exists dirs2, (λ d, all2 !!! d). split.
  - apply flatten_bind.
  - by rewrite Hdirs.
  - intros d. by rewrite Hdirs.
  - intros d. by rewrite Hall, Hm.
  - done.
  - intros ->. injection Hd2 as <- <-. apply sort_Strings_sorted.
  - intros -> d. injection Ha2 as <- <-.
    rewrite lookup_total_alt, sort_each_lookup by (by rewrite Hdirs).
    case_decide as Hin.
    + destruct (all !! d); simpl; [|constructor].
      apply (sort_by_sorted srt), less_file_strict_weak.
    + rewrite Hdirs, <-Hk in Hin.
      apply eq_None_not_Some in Hin. rewrite Hin. constructor.
  - intros -> ->. injection Hd2 as <- <-. by injection Ha2 as <- <-.
Qed.

(** The length check at the end of [shuffle] never fails, so [shuffle]
    returns as soon as its first loop does. *)
Lemma shuffle_returns locs sd si rnd :
  Forall (λ l, returns (Split l)) locs → returns (shuffle srt locs sd si rnd).
Proof.
  intros Hsplit. unfold shuffle.
  destruct (collect_returns locs ∅ [] Hsplit) as [[all dirs] Hc].
  rewrite Hc. simpl.
  apply (collect_grouped _ []) in Hc as [Hg _]; [|apply grouped_start].
  simpl in Hg.
  destruct (if sd then Shuffle rnd dirs else (sort_Strings srt dirs, rnd))
    as [dirs2 rnd2] eqn:Hd2.
  destruct (if si then shuffle_each all rnd2 dirs2
            else (sort_each srt all dirs2, rnd2)) as [all2 rnd3] eqn:Ha2.
  rewrite decide_False; [by eexists|].
  intros Hlen. apply Hlen, Permutation_length.
  apply (flatten_perm locs all dirs); [done| |].
  - destruct sd.
    + pose proof (Shuffle_perm rnd dirs) as Hp. by rewrite Hd2 in Hp.
    + injection Hd2 as <- <-. apply sort_by_perm.
  - intros d. destruct si.
    + pose proof (shuffle_each_perm all rnd2 dirs2 d) as [Hp _].
      by rewrite Ha2 in Hp.
    + injection Ha2 as <- <-. apply sort_each_perm.
Qed.

Lemma shuffle_returns_iff locs sd si rnd :
  returns (shuffle srt locs sd si rnd) ↔ Forall (λ l, returns (Split l)) locs.
Proof.
  split; [|apply shuffle_returns].
  intros [[out rnd'] H]. apply shuffle_blocks in H as (dirs & g & Hb).
  apply Hb.
Qed.

Lemma blocks_perm locs sd si rnd rnd' out dirs g :
  blocks locs sd si rnd rnd' out dirs g → out ≡ₚ locs.
Proof.
  intros [-> Hn Hd Hg Hs _ _ _].
  rewrite (bind_ext_perm _ _ _ Hg), bind_filter_perm by done.
  rewrite filter_all; [done|].
  apply Forall_forall. intros l Hl. apply Hd. by apply list_elem_of_fmap_2.
Qed.

End EngineProps.

(** ** Path splitting and the scheme prefix *)

Lemma IsPathSeparator_slash c : filepath.IsPathSeparator c = true → c = "/"%char.
Proof. apply Ascii.eqb_eq. Qed.

Lemma filepath_Split_spec path dir file :
  filepath.Split path = (dir, file) →
  path = dir +:+ file ∧ has_separator file = false ∧
  (dir = "" ∨ ∃ d, dir = d +:+ "/").
Proof.
  revert dir file. induction path as [|c rest IH]; intros dir file.
  { intros [= <- <-]. auto. }
  cbn [filepath.Split].
  destruct (filepath.Split rest) as [d f].
  destruct (IH d f eq_refl) as (-> & Hf & Hd).
  destruct d as [|c' d'].
  - destruct (filepath.IsPathSeparator c) eqn:Hc; intros [= <- <-].
    + apply IsPathSeparator_slash in Hc as ->.
      split_and!; [done..|]. right. by exists "".
    + split_and!; [done| |by left]. simpl. by rewrite Hc.
  - intros [= <- <-]. split_and!; [done..|]. right.
    destruct Hd as [|[d ->]]; [done|]. by exists (String c d).
Qed.

Lemma substring_all s : String.substring 0 (String.length s) s = s.
Proof. induction s as [|c s IH]; simpl; [done|]. by rewrite IH. Qed.

Lemma substring_none s : String.substring 0 0 s = "".
Proof. by destruct s. Qed.

Lemma strip_cases decoded :
  7 ≤ String.length decoded →
  (String.eqb (String.substring 0 7 decoded) "file://" = true ∧
   decoded = "file://" +:+
             String.substring 7 (String.length decoded - 7) decoded) ∨
  (String.eqb (String.substring 0 7 decoded) "file://" = false ∧
   ∀ r, decoded ≠ "file://" +:+ r).
Proof.
  intros Hlen.
  do 7 (destruct decoded as [|? decoded]; [simpl in Hlen; lia|]).
  clear Hlen. cbn [String.substring String.length Nat.sub].
  rewrite Nat.sub_0_r, substring_all, substring_none.
  destruct (String.eqb_spec
    (String a (String a0 (String a1 (String a2 (String a3 (String a4
      (String a5 EmptyString))))))) "file://") as [Heq|Hne].
  - left. injection Heq as -> -> -> -> -> -> ->. done.
  - right. split; [done|]. intros r Hr. apply Hne.
    by injection Hr as -> -> -> -> -> -> -> _.
Qed.

Lemma Text_Ok l text :
  Text l = Ok text ↔
  ∃ decoded, url.QueryUnescape l = inl decoded ∧ 7 ≤ String.length decoded ∧
    text = if String.eqb (String.substring 0 7 decoded) "file://"
           then String.substring 7 (String.length decoded - 7) decoded
           else decoded.
Proof.
  unfold Text. destruct (url.QueryUnescape l) as [decoded|err].
  - destruct (Nat.ltb_spec (String.length decoded) 7) as [Hlt|Hge].
    + split; [done|]. intros (? & [= <-] & ? & _). lia.
    + split.
      * intros H. exists decoded. split_and!; [done..|].
        destruct (String.eqb _ _); by injection H.
      * intros (? & [= <-] & _ & ->). by destruct (String.eqb _ _).
  - split; [done|]. by intros (? & ? & _).
Qed.

Lemma Text_Panic l :
  (∃ msg, Text l = Panic msg) ↔
  ∃ decoded, url.QueryUnescape l = inl decoded ∧ String.length decoded < 7.
Proof.
  unfold Text. destruct (url.QueryUnescape l) as [decoded|err].
  - destruct (Nat.ltb_spec (String.length decoded) 7) as [Hlt|Hge].
    + split; [by exists decoded|by eexists].
    + split.
      * intros [msg H]. by destruct (String.eqb _ _).
      * intros (? & [= <-] & ?). lia.
  - split; [by intros [? ?]|by intros (? & ? & _)].
Qed.

Lemma Text_Fatal l :
  (∃ msg, Text l = Fatal msg) ↔ ∃ err, url.QueryUnescape l = inr err.
Proof.
  unfold Text. destruct (url.QueryUnescape l) as [decoded|err].
  - split; [|by intros [? ?]]. intros [msg H].
    destruct (_ <? _); [done|]. by destruct (String.eqb _ _).
  - split; [by exists err|by eexists].
Qed.

Lemma Split_Ok l dir file :
  Split l = Ok (dir, file) ↔
  ∃ text, Text l = Ok text ∧ filepath.Split text = (dir, file).
Proof.
  unfold Split. destruct (Text l) as [text| |]; simpl.
  - split; [intros [= H]; by exists text|by intros (? & [= <-] & ->)].
  - split; [done|by intros (? & ? & _)].
  - split; [done|by intros (? & ? & _)].
Qed.

Lemma Split_returns_iff l :
  returns (Split l) ↔
  ∃ decoded, url.QueryUnescape l = inl decoded ∧ 7 ≤ String.length decoded.
Proof.
  split.
  - intros [[dir file] (text & (decoded & ? & ? & _)%Text_Ok & _)%Split_Ok].
    by exists decoded.
  - intros (decoded & Hd & Hlen).
    destruct (filepath.Split
      (if String.eqb (String.substring 0 7 decoded) "file://"
       then String.substring 7 (String.length decoded - 7) decoded
       else decoded)) as [dir file] eqn:Hs.
    exists (dir, file). apply Split_Ok. eexists. split; [|exact Hs].
    apply Text_Ok. by exists decoded.
Qed.

(** ** Sortedness of a sequence of blocks *)

Lemma StronglySorted_bind {A B} (Rd : relation A) (R : relation B)
    (g : A → list B) ds :
  StronglySorted Rd ds →
  (∀ d, d ∈ ds → StronglySorted R (g d)) →
  (∀ d1 d2 a b, Rd d1 d2 → a ∈ g d1 → b ∈ g d2 → R a b) →
  StronglySorted R (ds ≫= g).
Proof.
  intros Hds Hin Hout. induction Hds as [|d ds Hds IH Hd]; [constructor|].
  rewrite bind_cons. apply StronglySorted_app_2.
  - intros a b Ha (d2 & Hb & Hd2)%list_elem_of_bind.
    rewrite Forall_forall in Hd. apply (Hout d d2); auto.
  - apply Hin. by left.
  - apply IH. intros d' Hd'. apply Hin. by right.
Qed.

Lemma NoDup_StronglySorted {A} (l : list A) : NoDup l → StronglySorted (≠) l.
Proof.
  induction 1 as [|x l Hx _ IH]; constructor; [done|].
  apply Forall_forall. by intros y Hy ->.
Qed.

Lemma StronglySorted_const {A B} (R : relation B) `{!Reflexive R}
    (f : A → B) (l : list A) k :
  Forall (λ x, f x = k) l → StronglySorted (λ a b, R (f a) (f b)) l.
Proof.
  induction 1 as [|x l Hx Hl IH]; constructor; [done|].
  eapply Forall_impl; [exact Hl|]. intros y Hy. by rewrite Hx, Hy.
Qed.

Lemma runs_elem_of keys k : k ∈ runs keys → k ∈ keys.
Proof.
  induction keys as [|k' keys IH]; [done|]. cbn [runs].
  case_decide; [right; auto|].
  intros [->|?]%elem_of_cons; [by left|right; auto].
Qed.

Lemma runs_StronglySorted (R : relation string) keys :
  StronglySorted R keys → StronglySorted R (runs keys).
Proof.
  induction 1 as [|k keys Hs IH Hk]; [constructor|]. cbn [runs].
  case_decide; [done|]. constructor; [done|].
  rewrite Forall_forall in Hk |- *. intros k' Hk'%runs_elem_of. auto.
Qed.

(** ** The reorder engine: results *)

Section Results.
Context (srt : Sorter).

Lemma blocks_member locs sd si rnd rnd' out dirs g d a :
  blocks locs sd si rnd rnd' out dirs g → a ∈ g d → dirOf a = d ∧ a ∈ locs.
Proof.
  intros Hb Ha. rewrite (blocks_group _ _ _ _ _ _ _ _ Hb) in Ha.
  by apply list_elem_of_filter in Ha.
Qed.

Lemma blocks_keys_sorted locs si rnd rnd' out dirs g :
  blocks locs false si rnd rnd' out dirs g →
  StronglySorted String.le (dirOf <$> out).
Proof.
  intros Hb.
  apply (StronglySorted_fmap _ (λ a b, String.le (dirOf a) (dirOf b))); [done|].
  rewrite (blocks_out _ _ _ _ _ _ _ _ Hb).
  apply (StronglySorted_bind String.le).
  - by apply (blocks_dirs_sorted _ _ _ _ _ _ _ _ Hb).
  - intros d _. apply (StronglySorted_const _ _ _ d), Forall_forall.
    intros a Ha. by eapply blocks_member.
  - intros d1 d2 a b Hd Ha Hb'.
    eapply blocks_member in Ha as [-> _]; [|done].
    eapply blocks_member in Hb' as [-> _]; done.
Qed.

Lemma blocks_files_sorted locs sd rnd rnd' out dirs g :
  blocks locs sd false rnd rnd' out dirs g →
  StronglySorted
    (λ a b, dirOf a = dirOf b → String.le (fileOf a) (fileOf b)) out.
Proof.
  intros Hb. rewrite (blocks_out _ _ _ _ _ _ _ _ Hb).
  apply (StronglySorted_bind (≠)).
  - apply NoDup_StronglySorted, (blocks_NoDup _ _ _ _ _ _ _ _ Hb).
  - intros d _.
    eapply StronglySorted_weaken;
      [|by apply (blocks_group_sorted _ _ _ _ _ _ _ _ Hb)].
    intros a b _ _ Hless _. apply ltb_false_le. by rewrite <-less_file_ltb.
  - intros d1 d2 a b Hd Ha Hb' Heq.
    eapply blocks_member in Ha as [<- _]; [|done].
    eapply blocks_member in Hb' as [<- _]; done.
Qed.

Lemma blocks_run locs sd si rnd rnd' out dirs g d :
  blocks locs sd si rnd rnd' out dirs g →
  ∃ pre run post, out = pre ++ run ++ post ∧
    run ≡ₚ filter (λ l, dirOf l = d) locs ∧
    Forall (λ l, dirOf l ≠ d) pre ∧ Forall (λ l, dirOf l ≠ d) post.
Proof.
  intros Hb.
  assert (∀ ds, d ∉ ds → (∀ d', d' ∈ ds → d' ∈ dirs) →
                Forall (λ l, dirOf l ≠ d) (ds ≫= g)) as Hother.
  { intros ds Hd Hsub. apply Forall_forall.
    intros a (d' & Ha & Hd')%list_elem_of_bind.
    eapply blocks_member in Ha as [-> _]; [|done]. by intros ->. }
  pose proof (blocks_NoDup _ _ _ _ _ _ _ _ Hb) as Hn.
  rewrite (blocks_out _ _ _ _ _ _ _ _ Hb).
  destruct (decide (d ∈ dirs)) as [Hd|Hd].
  - apply list_elem_of_split in Hd as (ds1 & ds2 & Hdirs).
    rewrite Hdirs in Hn |- *.
    apply NoDup_app in Hn as (_ & Hd1 & [Hd2 _]%NoDup_cons).
    exists (ds1 ≫= g), (g d), (ds2 ≫= g).
    rewrite bind_app, bind_cons. split_and!; [done| | |].
    + apply (blocks_group _ _ _ _ _ _ _ _ Hb).
    + apply Hother.
      * intros Hin. apply (Hd1 _ Hin). by left.
      * intros d' Hd'. rewrite Hdirs, elem_of_app. by left.
    + apply Hother; [done|].
      intros d' Hd'. rewrite Hdirs, elem_of_app. right. by right.
  - exists (dirs ≫= g), [], []. rewrite !app_nil_r. split_and!; [done| | |done].
    + rewrite filter_none; [done|]. apply Forall_forall. intros l Hl Heq.
      apply Hd, (blocks_dirs _ _ _ _ _ _ _ _ Hb). rewrite <-Heq.
      by apply list_elem_of_fmap_2.
    + by apply Hother.
Qed.

End Results.

Section Claims.
Context (srt : Sorter).

(** C1: for every input and both flags, [shuffle] returns whenever every
    location splits, and whatever it returns is a permutation of the input:
    the same records with the same multiplicities, hence the same length. *)
Theorem shuffle_permutation locations shuffleDirs shuffleInDir rnd :
  (Forall (λ l, returns (Split l)) locations →
   returns (shuffle srt locations shuffleDirs shuffleInDir rnd)) ∧
  ∀ result rnd',
    shuffle srt locations shuffleDirs shuffleInDir rnd = Ok (result, rnd') →
    result ≡ₚ locations ∧ length result = length locations.
Proof.
  split; [apply shuffle_returns|].
  intros result rnd' (dirs & g & Hb)%shuffle_blocks.
  apply blocks_perm in Hb. split; [done|]. by rewrite Hb.
Qed.

(** C3: with [shuffleDirs = false], the group keys of the result, one per
    contiguous run and in the order of the runs, are non-decreasing in the
    bytewise lexicographic order. *)
Theorem shuffle_dirs_sorted locations shuffleInDir rnd :
  (Forall (λ l, returns (Split l)) locations →
   returns (shuffle srt locations false shuffleInDir rnd)) ∧
  ∀ result rnd',
    shuffle srt locations false shuffleInDir rnd = Ok (result, rnd') →
    StronglySorted String.le (runs (dirOf <$> result)).
Proof.
  split; [apply shuffle_returns|].
  intros result rnd' (dirs & g & Hb)%shuffle_blocks.
  by eapply runs_StronglySorted, blocks_keys_sorted.
Qed.

(** C4: with [shuffleInDir = false], every contiguous run of the result
    whose records share one group key has its leaf names non-decreasing in
    the bytewise lexicographic order, which puts "10" before "2". *)
Theorem shuffle_files_sorted locations shuffleDirs rnd :
  (Forall (λ l, returns (Split l)) locations →
   returns (shuffle srt locations shuffleDirs false rnd)) ∧
  (∀ result rnd',
    shuffle srt locations shuffleDirs false rnd = Ok (result, rnd') →
    ∀ pre run post, result = pre ++ run ++ post →
      (∀ a b, a ∈ run → b ∈ run → dirOf a = dirOf b) →
      StronglySorted (λ a b, String.le (fileOf a) (fileOf b)) run) ∧
  strings.Compare "10" "2" = Lt ∧
  less_file "file:///m/10" "file:///m/2" = true.
Proof.
  split; [apply shuffle_returns|]. split; [|done].
  intros result rnd' (dirs & g & Hb)%shuffle_blocks pre run post -> Hrun.
  apply blocks_files_sorted in Hb.
  apply StronglySorted_app_1_r, StronglySorted_app_1_l in Hb.
  eapply StronglySorted_weaken; [|exact Hb].
  intros a b Ha Hb' Hle. by apply Hle, Hrun.
Qed.

(** C5: for both flags, the records of the input that have a given group
    key fill one contiguous run of the result, and no record outside that
    run has the key; the first loop puts every input record in the group of
    its key and in no other. *)
Theorem shuffle_groups_contiguous locations shuffleDirs shuffleInDir rnd :
  (Forall (λ l, returns (Split l)) locations →
   returns (shuffle srt locations shuffleDirs shuffleInDir rnd)) ∧
  ∀ result rnd',
    shuffle srt locations shuffleDirs shuffleInDir rnd = Ok (result, rnd') →
    (∀ d, ∃ pre run post, result = pre ++ run ++ post ∧
       run ≡ₚ filter (λ l, dirOf l = d) locations ∧
       Forall (λ l, dirOf l ≠ d) pre ∧ Forall (λ l, dirOf l ≠ d) post) ∧
    (∃ all dirs, collect locations ∅ [] = Ok (all, dirs) ∧ NoDup dirs ∧
       (∀ d, all !!! d = filter (λ l, dirOf l = d) locations) ∧
       (∀ l d, l ∈ locations → (l ∈ all !!! d ↔ d = dirOf l)) ∧
       (∀ l, l ∈ locations → dirOf l ∈ dirs)).
Proof.
  split; [apply shuffle_returns|].
  intros result rnd' H. split.
  - apply shuffle_blocks in H as (dirs & g & Hb). intros d.
    by eapply blocks_run.
  - unfold shuffle in H.
    destruct (collect locations ∅ []) as [[all dirs]| |] eqn:Hc; [|done..].
    apply (collect_grouped _ []) in Hc as [[Hm Hk Hd Hn] _];
      [|apply grouped_start].
    exists all, dirs. split_and!; [done..| |].
    + intros l d Hl. rewrite Hm, list_elem_of_filter. clear -Hl.
      split; [by intros [-> _]|by intros ->].
    + intros l Hl. apply Hd. by apply list_elem_of_fmap_2.
Qed.

(** C7: with both flags false the result does not depend on the random
    source, which is left as it was: two runs on the same input end the
    same way, with the same sequence when they return. *)
Theorem shuffle_deterministic locations rnd1 rnd2 :
  fst <$> shuffle srt locations false false rnd1
  = fst <$> shuffle srt locations false false rnd2 ∧
  (∀ result rnd',
     shuffle srt locations false false rnd1 = Ok (result, rnd') →
     rnd' = rnd1 ∧ shuffle srt locations false false rnd2 = Ok (result, rnd2)).
Proof.
  unfold shuffle.
  destruct (collect locations ∅ []) as [[all dirs]| |]; simpl; [|done..].
  case_decide; [done|]. split; [done|].
  by intros result rnd' [= <- <-].
Qed.

End Claims.

Lemma shuffle_permutation_witness :
  ∃ result rnd', shuffle go_sort playlist true true seed0 = Ok (result, rnd') ∧
    result ≡ₚ playlist ∧ length result = length playlist.
Proof.
  destruct (shuffle_permutation go_sort playlist true true seed0)
    as [Hret Hperm].
  destruct Hret as [[result rnd'] H]; [repeat constructor; by eexists|].
  exists result, rnd'. split; [done|]. by apply (Hperm _ rnd').
Defined.

Lemma shuffle_dirs_sorted_witness :
  ∃ result rnd', shuffle go_sort playlist false true seed0 = Ok (result, rnd') ∧
    StronglySorted String.le (runs (dirOf <$> result)).
Proof.
  destruct (shuffle_dirs_sorted go_sort playlist true seed0) as [Hret Hs].
  destruct Hret as [[result rnd'] H]; [repeat constructor; by eexists|].
  exists result, rnd'. split; [done|]. by apply (Hs _ rnd').
Defined.

Lemma shuffle_files_sorted_witness :
  StronglySorted (λ a b, String.le (fileOf a) (fileOf b))
    ["file:///m/10"; "file:///m/2"].
Proof.
  destruct (shuffle_files_sorted go_sort
              ["file:///B/x"; "file:///m/2"; "file:///m/10"] false seed0)
    as (_ & Hs & _).
  apply (Hs ["file:///B/x"; "file:///m/10"; "file:///m/2"] seed0 eq_refl
            ["file:///B/x"] ["file:///m/10"; "file:///m/2"] [] eq_refl).
  intros a b Ha Hb.
  apply elem_of_cons in Ha as [->|Ha]; [|apply list_elem_of_singleton in Ha as ->];
    (apply elem_of_cons in Hb as [->|Hb];
      [|apply list_elem_of_singleton in Hb as ->]); reflexivity.
Defined.

Lemma shuffle_groups_contiguous_witness :
  ∃ result pre run post,
    result = pre ++ run ++ post ∧
    run ≡ₚ ["file:///B/song2"; "file:///B/song1"] ∧
    Forall (λ l, dirOf l ≠ "/B/") pre ∧ Forall (λ l, dirOf l ≠ "/B/") post.
Proof.
  destruct (shuffle_groups_contiguous go_sort playlist true true seed0)
    as [Hret Hc].
  destruct Hret as [[result rnd'] H]; [repeat constructor; by eexists|].
  destruct (Hc _ _ H) as [Hrun _].
  destruct (Hrun "/B/") as (pre & run & post & Hresult & Hperm & Hpre & Hpost).
  by exists result, pre, run, post.
Defined.

Lemma shuffle_deterministic_witness :
  shuffle go_sort playlist false false seed1
  = Ok (["file:///A/song1"; "file:///A/song2";
         "file:///B/song1"; "file:///B/song2"], seed1).
Proof.
  destruct (shuffle_deterministic go_sort playlist seed0 seed1) as [_ Hd].
  by apply (Hd _ seed0).
Defined.

(** ** Key extraction: results *)

Lemma filepath_Split_no_separator file :
  has_separator file = false → filepath.Split file = ("", file).
Proof.
  induction file as [|c file IH]; [done|]. simpl.
  intros [Hc Hf]%orb_false_elim. by rewrite (IH Hf), Hc.
Qed.

Lemma filepath_Split_dir d file :
  has_separator file = false →
  filepath.Split ((d +:+ "/") +:+ file) = (d +:+ "/", file).
Proof.
  intros Hf. induction d as [|c d IH].
  - change (("" +:+ "/") +:+ file) with (String "/" file).
    cbn [filepath.Split]. by rewrite filepath_Split_no_separator.
  - change ((String c d +:+ "/") +:+ file)
      with (String c ((d +:+ "/") +:+ file)).
    cbn [filepath.Split]. rewrite IH. by destruct d.
Qed.

Lemma filepath_Split_unique path dir file :
  path = dir +:+ file → has_separator file = false →
  (dir = "" ∨ ∃ d, dir = d +:+ "/") →
  filepath.Split path = (dir, file).
Proof.
  intros -> Hf [->|[d ->]].
  - by apply filepath_Split_no_separator.
  - by apply filepath_Split_dir.
Qed.

Lemma Text_stripped l text decoded :
  Text l = Ok text → url.QueryUnescape l = inl decoded →
  (∀ r, decoded = "file://" +:+ r → text = r) ∧
  ((∀ r, decoded ≠ "file://" +:+ r) → text = decoded).
Proof.
  intros (decoded' & Hd & Hlen & ->)%Text_Ok Hd'.
  rewrite Hd in Hd'. injection Hd' as ->.
  destruct (strip_cases decoded Hlen) as [[-> Heq]|[-> Hne]].
  - split.
    + intros r Hr. rewrite Hr in Heq at 1. by apply (inj _) in Heq.
    + intros Hne. by destruct (Hne _ Heq).
  - split; [|done]. intros r Hr. by destruct (Hne r).
Qed.

(** ** Decoding, in words and in the library *)

Lemma hex_digit_unhex c :
  described.hex_digit c = if url.ishex c then Some (url.unhex c) else None.
Proof. destruct c as [[] [] [] [] [] [] [] []]; vm_compute; reflexivity. Qed.

Lemma unhex_bound c : (url.unhex c < 16)%N.
Proof. destruct c as [[] [] [] [] [] [] [] []]; vm_compute; reflexivity. Qed.

Lemma lor_nibbles hi lo :
  (hi < 16)%N → (lo < 16)%N → N.lor (N.shiftl hi 4) lo = (16 * hi + lo)%N.
Proof.
  intros Hhi Hlo.
  assert (∃ n, n < 16 ∧ hi = N.of_nat n) as (n & Hn & ->)
    by (exists (N.to_nat hi); lia).
  assert (∃ m, m < 16 ∧ lo = N.of_nat m) as (m & Hm & ->)
    by (exists (N.to_nat lo); lia).
  clear Hhi Hlo.
  do 16 (destruct n as [|n];
    [do 16 (destruct m as [|m]; [reflexivity|]); lia|]).
  lia.
Qed.

(** Decoding a query component in words is what [url.QueryUnescape]
    computes, and fails where it fails. *)
Lemma query_decode_QueryUnescape s :
  described.query_decode s
  = match url.QueryUnescape s with inl d => Some d | inr _ => None end.
Proof.
  unfold described.query_decode, url.QueryUnescape.
  remember (String.length s) as n eqn:Hn.
  revert s Hn. induction n as [n IH] using lt_wf_ind. intros s Hn.
  destruct s as [|c rest]; [done|].
  cbn [described.unescape_with url.malformed url.decode].
  destruct (Ascii.eqb c "%") eqn:Hc.
  - destruct rest as [|x [|y rest']]; [done..|].
    rewrite !hex_digit_unhex.
    destruct (url.ishex x); [|done]. destruct (url.ishex y); [|done].
    cbn [andb].
    rewrite (IH (String.length rest')) by (simpl in Hn; lia || done).
    rewrite lor_nibbles by apply unhex_bound.
    by destruct (url.malformed rest').
  - destruct (Ascii.eqb c "+").
    + rewrite (IH (String.length rest)) by (simpl in Hn; lia || done).
      by destruct (url.malformed rest).
    + rewrite (IH (String.length rest)) by (simpl in Hn; lia || done).
      by destruct (url.malformed rest).
Qed.

Lemma query_decode_Some s decoded :
  described.query_decode s = Some decoded ↔ url.QueryUnescape s = inl decoded.
Proof.
  rewrite query_decode_QueryUnescape.
  destruct (url.QueryUnescape s); split; congruence.
Qed.

Lemma keys_of_unique decoded dir file dir' file' :
  7 ≤ String.length decoded →
  keys_of decoded dir file → keys_of decoded dir' file' →
  dir' = dir ∧ file' = file.
Proof.
  intros Hlen (rest & H1 & H2 & Hrest & Hf & Hdir)
    (rest' & H1' & H2' & Hrest' & Hf' & Hdir').
  assert (rest' = rest) as ->.
  { destruct (strip_cases decoded Hlen) as [[_ Heq]|[_ Hne]].
    - by rewrite (H1 _ Heq), (H1' _ Heq).
    - by rewrite (H2 Hne), (H2' Hne). }
  pose proof (filepath_Split_unique _ _ _ Hrest Hf Hdir) as Hs.
  pose proof (filepath_Split_unique _ _ _ Hrest' Hf' Hdir') as Hs'.
  rewrite Hs in Hs'. by injection Hs' as -> ->.
Qed.

(** C2: the keys [Location.Split] returns for a raw location are those
    of the description once "percent-decoding" is read as the decoding
    of a URL query component, in which "%XY" is a byte and '+' is a space:
    the prefix "file://" is dropped when the decoded string begins with it,
    and the rest is cut just after its last separator, which stays with the
    group key.  Every location that decodes to at least 7 bytes has such
    keys, they are the only pair that fits, and [Location.Split] returns no
    other keys on any location.  The example of the specification comes out
    as stated. *)
Theorem Split_derived_keys (l : Location) (decoded : string) :
  (described.query_decode l = Some decoded → 7 ≤ String.length decoded →
   ∃ dir file, Split l = Ok (dir, file) ∧ keys_of decoded dir file ∧
     ∀ dir' file', keys_of decoded dir' file' → dir' = dir ∧ file' = file) ∧
  (∀ dir file, Split l = Ok (dir, file) →
   ∃ decoded', described.query_decode l = Some decoded' ∧
     keys_of decoded' dir file) ∧
  Split "file://%2Fmusic%2FArtist%2Fsong.mp3"
  = Ok ("/music/Artist/", "song.mp3").
Proof.
  split_and!; [| |done].
  - intros Hd%query_decode_Some Hlen.
    destruct (proj2 (Split_returns_iff l)) as [[dir file] Hs];
      [by exists decoded|].
    exists dir, file. split; [done|].
    assert (keys_of decoded dir file) as Hk.
    { apply Split_Ok in Hs as (text & Ht & Hs). exists text.
      destruct (Text_stripped _ _ _ Ht Hd) as [H1 H2].
      by destruct (filepath_Split_spec _ _ _ Hs) as (? & ? & ?). }
    split; [done|]. intros dir' file' Hk'. by eapply keys_of_unique.
  - intros dir file (text & Ht & Hs)%Split_Ok.
    pose proof Ht as (decoded' & Hd & _)%Text_Ok.
    exists decoded'. split; [by apply query_decode_Some|]. exists text.
    destruct (Text_stripped _ _ _ Ht Hd) as [H1 H2].
    by destruct (filepath_Split_spec _ _ _ Hs) as (? & ? & ?).
Qed.

Lemma Split_derived_keys_witness :
  ∃ dir file,
    Split "file://%2Fmusic%2FArtist%2Fsong.mp3" = Ok (dir, file) ∧
    keys_of "file:///music/Artist/song.mp3" dir file ∧
    ∀ dir' file', keys_of "file:///music/Artist/song.mp3" dir' file' →
      dir' = dir ∧ file' = file.
Proof.
  apply (proj1 (Split_derived_keys "file://%2Fmusic%2FArtist%2Fsong.mp3"
                  "file:///music/Artist/song.mp3")).
  - reflexivity.
  - simpl. lia.
Defined.

(** C2, as worded, fails where a location holds a '+': percent-decoding
    leaves "file:///music/a+b.mp3" as it is, so the keys described are
    "/music/" and "a+b.mp3", and [Location.Split] returns the leaf name
    "a b.mp3". *)
Lemma Split_plus_counterexample :
  described.percent_decode "file:///music/a+b.mp3"
  = Some "file:///music/a+b.mp3" ∧
  keys_of "file:///music/a+b.mp3" "/music/" "a+b.mp3" ∧
  Split "file:///music/a+b.mp3" = Ok ("/music/", "a b.mp3") ∧
  Split "file:///music/a+b.mp3" ≠ Ok ("/music/", "a+b.mp3").
Proof.
  split_and!; [done| |done|done].
  exists "/music/a+b.mp3". split_and!; [|by intros H; destruct (H "/music/a+b.mp3")|done|done|].
  - intros r Hr. by injection Hr.
  - right. by exists "/music".
Qed.

(** C9: [Location.Text], which is the same function in both programs,
    returns only when the decoded location has at least 7 bytes: a location
    that decodes without error to fewer bytes makes the slice expression
    [escapedStr[:7]] panic, and "a.mp3" is one. *)
Theorem Text_short_panics (l : Location) (decoded : string) :
  (url.QueryUnescape l = inl decoded →
   (returns (Text l) ↔ 7 ≤ String.length decoded) ∧
   (String.length decoded < 7 → Text l = Panic "slice bounds out of range")) ∧
  url.QueryUnescape "a.mp3" = inl "a.mp3" ∧
  Text "a.mp3" = Panic "slice bounds out of range".
Proof.
  split; [|done]. intros Hd. unfold Text. rewrite Hd.
  destruct (Nat.ltb_spec (String.length decoded) 7) as [Hlt|Hge].
  - split; [|done]. split; [by intros [? ?]|lia].
  - split; [|lia]. split; [done|]. intros _.
    destruct (String.eqb _ _); by eexists.
Qed.

Lemma Text_short_panics_witness :
  Text "b.ogg" = Panic "slice bounds out of range".
Proof.
  refine (proj2 (proj1 (Text_short_panics "b.ogg" "b.ogg") eq_refl) _).
  simpl. lia.
Defined.

(** ** Failure *)

Lemma Split_fails_iff l :
  ¬ returns (Split l) ↔
  (∃ err, url.QueryUnescape l = inr err) ∨
  (∃ decoded, url.QueryUnescape l = inl decoded ∧ String.length decoded < 7).
Proof.
  rewrite Split_returns_iff. split.
  - intros Hno. destruct (url.QueryUnescape l) as [decoded|err] eqn:Hd.
    + right. exists decoded. split; [done|].
      destruct (decide (7 ≤ String.length decoded)); [|lia].
      destruct Hno. by exists decoded.
    + left. by exists err.
  - intros [[err He]|(decoded' & Hd' & Hlt)] (decoded & Hd & Hlen).
    + by rewrite Hd in He.
    + rewrite Hd in Hd'. injection Hd' as <-. lia.
Qed.

(** [shuffle] fails exactly when some location does not split, that is,
    when it does not decode or decodes to fewer than 7 bytes. *)
Lemma shuffle_fails_iff srt locations shuffleDirs shuffleInDir rnd :
  fails (shuffle srt locations shuffleDirs shuffleInDir rnd) ↔
  Exists (λ l, (∃ err, url.QueryUnescape l = inr err) ∨
               (∃ decoded, url.QueryUnescape l = inl decoded ∧
                           String.length decoded < 7)) locations.
Proof.
  unfold fails. rewrite shuffle_returns_iff. split.
  - intros H%not_Forall_Exists; [|apply _].
    eapply Exists_impl; [exact H|]. intros l Hl. by apply Split_fails_iff.
  - intros H. apply Exists_not_Forall.
    eapply Exists_impl; [exact H|]. intros l Hl. by apply Split_fails_iff.
Qed.

(** C6, at a failing input: a playlist with the location "a.mp3", whose
    percent-encoding is well formed, makes [shuffle] panic.  In general
    [shuffle] fails exactly when some location has a malformed
    percent-encoding or decodes to fewer than 7 bytes. *)
Theorem shuffle_short_location_panics srt shuffleDirs shuffleInDir rnd :
  url.QueryUnescape "file:///music/a.mp3" = inl "file:///music/a.mp3" ∧
  url.QueryUnescape "a.mp3" = inl "a.mp3" ∧
  shuffle srt ["file:///music/a.mp3"; "a.mp3"] shuffleDirs shuffleInDir rnd
  = Panic "slice bounds out of range" ∧
  ∀ locations,
    fails (shuffle srt locations shuffleDirs shuffleInDir rnd) ↔
    Exists (λ l, (∃ err, url.QueryUnescape l = inr err) ∨
                 (∃ decoded, url.QueryUnescape l = inl decoded ∧
                             String.length decoded < 7)) locations.
Proof. split_and!; [done..|]. intros locations. apply shuffle_fails_iff. Qed.

(** ** The in-place variant *)

Lemma sort_by_unique srt {A} (less : A → A → bool) l l' :
  StrictWeakOrder less →
  l' ≡ₚ l →
  StronglySorted (λ a b, less b a = false) l' →
  (∀ a b, a ∈ l → b ∈ l → less a b = false → less b a = false → a = b) →
  sort_by srt less l = l'.
Proof.
  intros Hless Hperm Hsorted Hanti.
  apply (StronglySorted_unique_strong (λ a b, less b a = false)).
  - intros a b Ha Hb Hab Hba.
    rewrite sort_by_perm in Ha. rewrite Hperm in Hb. by apply Hanti.
  - by apply sort_by_sorted.
  - done.
  - by rewrite sort_by_perm.
Qed.

Lemma sort_Strings_unique srt dirs dirs' :
  dirs' ≡ₚ dirs → StronglySorted String.le dirs' →
  sort_by srt String.ltb dirs = dirs'.
Proof.
  intros Hperm Hsorted. apply sort_by_unique; [apply _|done| |].
  - eapply StronglySorted_weaken; [|exact Hsorted].
    intros a b _ _. by rewrite ltb_false_le.
  - intros a b _ _ Hab%ltb_false_le Hba%ltb_false_le. by apply (anti_symm String.le).
Qed.

Lemma sort_files_unique srt l l' :
  l' ≡ₚ l →
  StronglySorted (λ a b, String.le (fileOf a) (fileOf b)) l' →
  (∀ a b, a ∈ l → b ∈ l → fileOf a = fileOf b → a = b) →
  sort_by srt less_file l = l'.
Proof.
  intros Hperm Hsorted Hinj. apply sort_by_unique; [apply _|done| |].
  - eapply StronglySorted_weaken; [|exact Hsorted].
    intros a b _ _. by rewrite less_file_ltb, ltb_false_le.
  - intros a b Ha Hb. rewrite !less_file_ltb, !ltb_false_le. intros Hab Hba.
    by apply Hinj, (anti_symm String.le).
Qed.

Lemma sort_group_A srt :
  sort_by srt less_file ["file:///A/1"; "file:///A/2"]
  = ["file:///A/1"; "file:///A/2"].
Proof.
  apply sort_files_unique; [done| |].
  - repeat constructor.
  - intros a b Ha Hb.
    apply elem_of_cons in Ha as [->|Ha];
      [|apply list_elem_of_singleton in Ha as ->];
      (apply elem_of_cons in Hb as [->|Hb];
        [|apply list_elem_of_singleton in Hb as ->]); done.
Qed.

Lemma sort_group_B srt :
  sort_by srt less_file ["file:///B/1"] = ["file:///B/1"].
Proof.
  apply sort_files_unique; [done|repeat constructor|].
  by intros a b ->%list_elem_of_singleton ->%list_elem_of_singleton.
Qed.

(** C10, at a failing input: on two locations of one directory followed by
    one of another, with both flags false, the in-place variant leaves the
    first directory twice in the caller's slice and drops the last
    location, where the current program returns the three locations. *)
Theorem shuffle_in_place_differs srt rnd :
  shuffle_in_place srt two_dirs false false rnd
  = Ok (["file:///A/1"; "file:///A/2"; "file:///A/1"], rnd) ∧
  shuffle srt two_dirs false false rnd
  = Ok (["file:///A/1"; "file:///A/2"; "file:///B/1"], rnd).
Proof.
  assert (∀ all : gmap string (list Location),
    all !! "/A/" = Some ["file:///A/1"; "file:///A/2"] →
    all !! "/B/" = Some ["file:///B/1"] →
    ∀ dirs, dirs ⊆ ["/A/"; "/B/"] →
    sort_each srt all dirs !! "/A/" = Some ["file:///A/1"; "file:///A/2"] ∧
    sort_each srt all dirs !! "/B/" = Some ["file:///B/1"]) as Hsort.
  { intros all HA HB dirs. revert all HA HB. unfold sort_each.
    induction dirs as [|d dirs IH]; intros all HA HB Hsub; [done|].
    cbn [foldl]. apply IH.
    - rewrite lookup_alter. case_decide as Hd; [|done]. subst d.
      etrans; [exact (f_equal (fmap (sort_Slice srt less_file)) HA)|].
      simpl. unfold sort_Slice. by rewrite sort_group_A.
    - rewrite lookup_alter. case_decide as Hd; [|done]. subst d.
      etrans; [exact (f_equal (fmap (sort_Slice srt less_file)) HB)|].
      simpl. unfold sort_Slice. by rewrite sort_group_B.
    - intros x Hx. apply Hsub. by right. }
  split.
  - unfold shuffle_in_place.
    assert (collect_all two_dirs ∅ []
            = Ok (<["/B/" := ["file:///B/1"]]>
                    (<["/A/" := ["file:///A/1"; "file:///A/2"]]> ∅),
                  ["/A/"; "/A/"; "/B/"])) as -> by (by vm_compute).
    cbn -[sort_each flatten]. unfold sort_Strings.
    rewrite (sort_Strings_unique srt _ ["/A/"; "/A/"; "/B/"])
      by first [done|repeat constructor].
    rewrite flatten_bind. cbn -[sort_each].
    edestruct Hsort as [HA HB]; [..|
      rewrite !(lookup_total_correct _ _ _ HA), (lookup_total_correct _ _ _ HB)];
      [done|done| |done].
    intros x. rewrite !elem_of_cons, !elem_of_nil. tauto.
  - unfold shuffle.
    assert (collect two_dirs ∅ []
            = Ok (<["/B/" := ["file:///B/1"]]>
                    (<["/A/" := ["file:///A/1"; "file:///A/2"]]> ∅),
                  ["/A/"; "/B/"])) as -> by (by vm_compute).
    cbn -[sort_each flatten]. unfold sort_Strings.
    rewrite (sort_Strings_unique srt _ ["/A/"; "/B/"])
      by first [done|repeat constructor].
    rewrite flatten_bind. cbn -[sort_each].
    edestruct Hsort as [HA HB]; [..|
      rewrite !(lookup_total_correct _ _ _ HA), (lookup_total_correct _ _ _ HB)];
      [done|done| |done].
    intros x. rewrite !elem_of_cons, !elem_of_nil. tauto.
Qed.

Lemma alter_const {V} `{!Inhabited V} (f : V → V) d (m : gmap string V) :
  alter f d m = alter (λ _, f (m !!! d)) d m.
Proof.
  apply map_eq. intros d'. rewrite !lookup_alter. case_decide; [|done].
  rewrite lookup_total_alt. by destruct (m !! d).
Qed.

(** * The engine on a heap of backing arrays: properties *)

Module MemFacts.
Import Mem.

(** *** Slices that own their array *)

Section Frame.
Context (h0 : heap).
Local Abbreviation owned := (Mem.owned h0).

Lemma array_lookup h s : ptr s < length h → h !! ptr s = Some (array h s).
Proof. apply list_lookup_lookup_total_lt. Qed.

Lemma read_empty h s : empty s → read h s = [].
Proof. intros [Hl _]. unfold read. by rewrite Hl. Qed.

Lemma read_length h s : empty s ∨ owned h s → length (read h s) = len s.
Proof.
  intros [He|[_ _ Hl Hc]].
  - rewrite read_empty by done. by destruct He.
  - unfold read. rewrite length_take. lia.
Qed.

Lemma owned_frame h h' t :
  owned h t → h' !! ptr t = h !! ptr t → owned h' t ∧ read h' t = read h t.
Proof.
  intros [Hn Hp Hl Hc] Heq.
  rewrite (array_lookup h t Hp) in Heq.
  assert (array h' t = array h t) as Ha
    by (by apply list_lookup_total_correct).
  split; [split|]; [done| |done|by rewrite Ha|by unfold read; rewrite Ha].
  by eapply lookup_lt_Some.
Qed.

Lemma insert_prefix (h : heap) i x :
  h0 `prefix_of` h → length h0 ≤ i → h0 `prefix_of` <[i := x]> h.
Proof.
  intros [k ->] Hi. rewrite insert_app_r_alt by done. by eexists.
Qed.

Lemma prefix_lookup_lt (h : heap) p :
  h0 `prefix_of` h → p < length h0 → h !! p = h0 !! p.
Proof. intros [k ->] Hp. by apply lookup_app_l. Qed.

(** Writing in place: the array of [s] gets [xs] in place of its first
    [length xs] elements, and nothing else changes. *)
Lemma write_spec h s s' xs rest :
  h0 `prefix_of` h → owned h s →
  ptr s' = ptr s → len s' = length xs → cap s' = cap s →
  length xs + length rest = cap s →
  h0 `prefix_of` <[ptr s := xs ++ rest]> h ∧
  length (<[ptr s := xs ++ rest]> h) = length h ∧
  owned (<[ptr s := xs ++ rest]> h) s' ∧
  read (<[ptr s := xs ++ rest]> h) s' = xs ∧
  (∀ p, p ≠ ptr s → <[ptr s := xs ++ rest]> h !! p = h !! p).
Proof.
  intros Hpre [Hn Hp Hl Hc] Hptr Hlen Hcap Hsize.
  assert (array (<[ptr s := xs ++ rest]> h) s' = xs ++ rest) as Ha.
  { unfold array. rewrite Hptr. by apply list_lookup_total_insert_eq. }
  split_and!.
  - by apply insert_prefix.
  - apply length_insert.
  - split; rewrite ?Hptr, ?Hcap, ?Ha, ?length_insert, ?length_app; lia.
  - unfold read. rewrite Ha, Hlen. apply take_app_length.
  - intros p Hne. by apply list_lookup_insert_ne.
Qed.

Lemma store_spec h s xs :
  h0 `prefix_of` h → owned h s → length xs = len s →
  h0 `prefix_of` store h s xs ∧ length (store h s xs) = length h ∧
  owned (store h s xs) s ∧ read (store h s xs) s = xs ∧
  (∀ p, p ≠ ptr s → store h s xs !! p = h !! p).
Proof.
  intros Hpre Ho Hlen. apply write_spec; [done..|].
  rewrite length_drop, Hlen. destruct Ho. lia.
Qed.

Lemma write_same (h : heap) p : <[p := h !!! p]> h = h.
Proof.
  apply list_insert_id'. intros Hp. by apply list_lookup_lookup_total_lt.
Qed.

Lemma new_array_length (xs ys : list Location) n extra :
  length xs + length ys = n →
  length (xs ++ ys ++ replicate (n + extra - n) "") = n + extra.
Proof. intros <-. rewrite !length_app, length_replicate. lia. Qed.

Lemma store_empty h s : empty s → store h s [] = h.
Proof.
  intros [Hl _]. unfold store. rewrite Hl. simpl. apply write_same.
Qed.

End Frame.

(** *** The map of slices and the map of sequences *)

Section Refinement.
Context (spare : nat → nat → nat) (h0 : heap).
Local Abbreviation rep := (Mem.rep h0).

Lemma rep_start : rep h0 ∅ ∅.
Proof.
  split; [done| | |].
  - intros d. by rewrite !lookup_empty.
  - intros d s. by rewrite lookup_empty.
  - intros d1 d2 s1 s2. by rewrite lookup_empty.
Qed.

Lemma rep_lookup h allm allf d :
  rep h allm allf →
  (empty (allm !!! d) ∨ owned h0 h (allm !!! d)) ∧
  read h (allm !!! d) = allf !!! d.
Proof.
  intros [_ Hdom Ho _]. rewrite (lookup_total_alt allm).
  destruct (allm !! d) as [s|] eqn:Hs; simpl.
  - destruct (Ho d s Hs). auto.
  - split; [by left|].
    assert (allf !! d = None) as Hf.
    { apply eq_None_not_Some. rewrite <-Hdom, Hs. by intros [? ?]. }
    by rewrite lookup_total_alt, Hf.
Qed.

(** The frame of a step that touches only the array at [q], which no
    entry other than [d]'s points to, or only new arrays. *)
Lemma rep_update h h' allm allf d s' xs :
  rep h allm allf →
  h0 `prefix_of` h' →
  owned h0 h' s' → read h' s' = xs →
  (∀ t, owned h0 h t → ptr t ≠ ptr s' → h' !! ptr t = h !! ptr t) →
  (∀ d2 s2, d2 ≠ d → allm !! d2 = Some s2 → ptr s2 ≠ ptr s') →
  rep h' (<[d := s']> allm) (<[d := xs]> allf).
Proof.
  intros [Hpre Hdom Ho Hsep] Hpre' Ho' Hread Hframe Hfresh. split; [done| | |].
  - intros d2. rewrite !lookup_insert_is_Some, Hdom. done.
  - intros d2 s2. destruct (decide (d = d2)) as [<-|Hne].
    + rewrite lookup_insert_eq, lookup_total_insert_eq. by intros [= <-].
    + rewrite lookup_insert_ne, lookup_total_insert_ne by done. intros Hs2.
      destruct (Ho d2 s2 Hs2) as [Ho2 Hr2].
      destruct (owned_frame h0 h h' s2 Ho2) as [? ->]; [|done].
      apply Hframe; [done|]. by eapply Hfresh.
  - intros d1 d2 s1 s2.
    destruct (decide (d = d1)) as [<-|Hne1]; destruct (decide (d = d2)) as [<-|Hne2];
      rewrite ?lookup_insert_eq, ?lookup_insert_ne by done; [done| | |by apply Hsep].
    + intros [= <-] Hs2 Heq. by destruct (Hfresh d2 s2).
    + intros Hs1 [= <-] Heq. by destruct (Hfresh d1 s1).
Qed.

(** [append] on the entry of [dir]. *)
Lemma rep_append h allm allf dir l h' s' :
  rep h allm allf →
  append spare h (allm !!! dir) [l] = (h', s') →
  rep h' (<[dir := s']> allm) (<[dir := allf !!! dir ++ [l]]> allf).
Proof.
  intros Hrep Happ.
  destruct (rep_lookup h allm allf dir Hrep) as [Hs Hread].
  pose proof (read_length h0 h _ Hs) as Hrl.
  pose proof Hrep as [Hpre Hdom Ho Hsep].
  unfold append in Happ. cbn [length] in Happ. case_decide as Hcap.
  - (* in place *)
    destruct Hs as [[? ?]|Hs]; [lia|].
    injection Happ as <- <-.
    edestruct (write_spec h0 h (allm !!! dir)
      (mkSlice (ptr (allm !!! dir)) (len (allm !!! dir) + 1) (cap (allm !!! dir)))
      (read h (allm !!! dir) ++ [l])
      (drop (len (allm !!! dir) + 1) (array h (allm !!! dir))))
      as (Hpre' & Hlen' & Ho' & Hr' & Hframe); [done|done|done| |done| |].
    { simpl. rewrite length_app, Hrl. simpl. done. }
    { rewrite length_app, length_drop, Hrl. destruct Hs. simpl. lia. }
    rewrite <-app_assoc in Hpre', Ho', Hr', Hframe.
    eapply rep_update; [done..| | |].
    + etrans; [exact Hr'|by rewrite Hread].
    + intros t _ Hne. exact (Hframe _ Hne).
    + intros d2 s2 Hne Hs2. simpl.
      destruct (allm !! dir) as [s|] eqn:Hdir.
      * rewrite (lookup_total_correct _ _ _ Hdir). intros Heq.
        apply Hne. symmetry. by eapply Hsep.
      * rewrite lookup_total_alt, Hdir in Hs. simpl in Hs.
        destruct Hs as [_ _ _ Hc]. rewrite lookup_total_alt, Hdir in Hcap.
        simpl in Hcap. lia.
  - (* a new array *)
    injection Happ as <- <-.
    set (n := len (allm !!! dir) + 1) in *.
    set (c := n + spare (cap (allm !!! dir)) n).
    set (arr := read h (allm !!! dir) ++ l :: replicate (c - n) "").
    assert (h0 `prefix_of` h ++ [arr]) as Hpre' by (by apply prefix_app_r).
    assert (array (h ++ [arr]) (mkSlice (length h) n c) = arr) as Ha.
    { unfold array. simpl. by apply list_lookup_total_middle. }
    assert (length arr = c) as Hc.
    { unfold arr. rewrite length_app, Hrl. simpl.
      rewrite length_replicate. lia. }
    eapply rep_update; [done..| | | |].
    + split; simpl; rewrite ?Ha, ?length_app; simpl; try lia.
      apply prefix_length in Hpre. lia.
    + unfold read. rewrite Ha. simpl. unfold arr.
      rewrite (cons_middle l), app_assoc, take_app_length'; [by rewrite Hread|].
      rewrite length_app, Hrl. done.
    + intros t [_ Ht _ _] _. by apply lookup_app_l.
    + intros d2 s2 _ Hs2. simpl. destruct (Ho d2 s2 Hs2) as [[_ Ht _ _] _]. lia.
Qed.

(** A step that leaves the arrays of the entries alone. *)
Lemma rep_frame h h' allm allf :
  rep h allm allf → h0 `prefix_of` h' →
  (∀ d s, allm !! d = Some s → h' !! ptr s = h !! ptr s) →
  rep h' allm allf.
Proof.
  intros [Hpre Hdom Ho Hsep] Hpre' Hframe. split; [done..| |done].
  intros d s Hs. destruct (Ho d s Hs) as [Ho' Hr].
  destruct (owned_frame h0 h h' s Ho') as [? ->]; [|done].
  by eapply Hframe.
Qed.

(** Reordering the group of [d] in place. *)
Lemma rep_store h allm allf d xs :
  rep h allm allf → length xs = length (allf !!! d) →
  rep (store h (allm !!! d) xs) allm (alter (λ _, xs) d allf).
Proof.
  intros Hrep Hlen. pose proof Hrep as [Hpre Hdom Ho Hsep].
  destruct (allm !! d) as [s|] eqn:Hs.
  - destruct (Ho d s Hs) as [Hos Hr].
    rewrite (lookup_total_correct _ _ _ Hs).
    destruct (store_spec h0 h s xs) as (Hpre' & _ & Ho' & Hr' & Hframe);
      [done..| |].
    { rewrite Hlen, <-Hr. apply (read_length h0). by right. }
    assert (alter (λ _, xs) d allf = <[d := xs]> allf) as ->.
    { apply map_eq. intros d'. rewrite lookup_alter, lookup_insert.
      case_decide; [|done].
      assert (is_Some (allf !! d)) as [? ->]; [|done].
      apply Hdom. by rewrite Hs. }
    rewrite <-(insert_id allm d s Hs).
    apply (rep_update h); [done..| |].
    + intros t _ Hne. by apply Hframe.
    + intros d2 s2 Hne Hs2 Heq. apply Hne. by eapply Hsep.
  - assert (allf !! d = None) as Hf.
    { apply eq_None_not_Some. rewrite <-Hdom, Hs. by intros [? ?]. }
    rewrite (lookup_total_alt allf), Hf in Hlen. apply nil_length_inv in Hlen as ->.
    rewrite (lookup_total_alt allm), Hs. simpl.
    rewrite store_empty by done.
    assert (alter (λ _, []) d allf = allf) as ->; [|done].
    apply map_eq. intros d'. rewrite lookup_alter. case_decide; [|done].
    subst d'. by rewrite Hf.
Qed.

End Refinement.

End MemFacts.

(** ** The engine on the heap computes the engine on sequences *)

Section MemRefines.
Context (srt : Sorter) (spare : nat → nat → nat).
Context (h0 : list (list Location)) (locations : Mem.slice).
Context (Hvalid : Mem.valid h0 locations).

Lemma caller_array h :
  h0 `prefix_of` h → Mem.array h locations = Mem.array h0 locations.
Proof.
  intros Hpre. destruct Hvalid as [Hp _]. unfold Mem.array.
  apply list_lookup_total_correct.
  rewrite (MemFacts.prefix_lookup_lt h0 h _ Hpre Hp).
  by apply list_lookup_lookup_total_lt.
Qed.

Lemma collect_refines todo i h allm allf dirs :
  i + todo = Mem.len locations →
  Mem.rep h0 h allm allf →
  Mem.outcome_rel
    (λ '(h', allm', dirs') '(allf', dirsf'),
       dirs' = dirsf' ∧ Mem.rep h0 h' allm' allf')
    (Mem.collect spare todo i h locations allm dirs)
    (collect (drop i (Mem.read h0 locations)) allf dirs).
Proof.
  destruct Hvalid as [Hp Hl].
  revert i h allm allf dirs.
  induction todo as [|todo IH]; intros i h allm allf dirs Hi Hrep.
  - rewrite drop_ge; [done|].
    unfold Mem.read. rewrite length_take. lia.
  - cbn [Mem.collect].
    rewrite (caller_array h) by apply Hrep.
    assert (Mem.read h0 locations !! i
            = Some (Mem.array h0 locations !!! i)) as Hl'.
    { unfold Mem.read. rewrite lookup_take_lt by lia.
      apply list_lookup_lookup_total_lt. lia. }
    rewrite (drop_S _ _ _ Hl'). cbn [collect].
    destruct (Split (Mem.array h0 locations !!! i)) as [[dir file]| |];
      simpl; [|done..].
    destruct (Mem.append spare h (allm !!! dir)
                [Mem.array h0 locations !!! i]) as [h' s'] eqn:Happ.
    apply (MemFacts.rep_append spare h0 h allm allf) in Happ; [|done].
    assert ((if decide (is_Some (allm !! dir)) then dirs else dirs ++ [dir])
            = (if decide (is_Some (allf !! dir)) then dirs else dirs ++ [dir]))
      as ->.
    { destruct Hrep as [_ Hdom _ _].
      destruct (decide (is_Some (allm !! dir))) as [Hm|Hm];
        destruct (decide (is_Some (allf !! dir))) as [Hf|Hf]; try done.
      - by apply Hdom in Hm.
      - by apply Hdom in Hf. }
    apply IH; [lia|done].
Qed.

Lemma sort_each_refines h allm allf dirs :
  Mem.rep h0 h allm allf →
  Mem.rep h0 (Mem.sort_each srt h allm dirs) allm (sort_each srt allf dirs).
Proof.
  unfold Mem.sort_each, sort_each. revert h allf.
  induction dirs as [|d dirs IH]; intros h allf Hrep; [done|].
  cbn [foldl]. apply IH.
  destruct (MemFacts.rep_lookup h0 h allm allf d Hrep) as [_ ->].
  rewrite alter_const. apply MemFacts.rep_store; [done|].
  apply Permutation_length, sort_by_perm.
Qed.

Lemma shuffle_each_refines h allm allf rnd dirs :
  Mem.rep h0 h allm allf →
  (Mem.shuffle_each h allm rnd dirs).2 = (shuffle_each allf rnd dirs).2 ∧
  Mem.rep h0 (Mem.shuffle_each h allm rnd dirs).1 allm
    (shuffle_each allf rnd dirs).1.
Proof.
  unfold Mem.shuffle_each, shuffle_each. revert h allf rnd.
  induction dirs as [|d dirs IH]; intros h allf rnd Hrep; [done|].
  cbn [foldl].
  destruct (MemFacts.rep_lookup h0 h allm allf d Hrep) as [_ ->].
  pose proof (Shuffle_perm rnd (allf !!! d)) as Hperm.
  destruct (Shuffle rnd (allf !!! d)) as [xs rnd'].
  apply IH, MemFacts.rep_store; [done|]. by apply Permutation_length.
Qed.

(** The last loop: [result] is nil or owns an array allocated after
    those of the groups, which all lie below [b]. *)
Lemma flatten_refines h allm allf dirs :
  Mem.rep h0 h allm allf →
  Mem.rep h0 (Mem.flatten spare h allm dirs).1 allm allf ∧
  Mem.read (Mem.flatten spare h allm dirs).1 (Mem.flatten spare h allm dirs).2
  = flatten allf dirs ∧
  Mem.len (Mem.flatten spare h allm dirs).2 = length (flatten allf dirs) ∧
  (Mem.empty (Mem.flatten spare h allm dirs).2 ∧
   (Mem.flatten spare h allm dirs).1 = h ∨
   Mem.owned h0 (Mem.flatten spare h allm dirs).1
     (Mem.flatten spare h allm dirs).2 ∧
   length h ≤ Mem.ptr (Mem.flatten spare h allm dirs).2).
Proof.
  intros Hrep. unfold Mem.flatten, flatten.
  set (b := length h).
  assert (∀ d s, allm !! d = Some s → Mem.ptr s < b) as Hb.
  { intros d s Hs. by destruct (Mem.rep_owned _ _ _ _ Hrep d s Hs) as [[] _]. }
  assert (∀ hc result acc,
    Mem.rep h0 hc allm allf → b ≤ length hc →
    (Mem.empty result ∧ acc = [] ∧ hc = h ∨
     Mem.owned h0 hc result ∧ b ≤ Mem.ptr result ∧ Mem.read hc result = acc) →
    let r := foldl (λ '(h, result) dir,
                      Mem.append spare h result (Mem.read h (allm !!! dir)))
                   (hc, result) dirs in
    Mem.rep h0 r.1 allm allf ∧
    Mem.read r.1 r.2 = foldl (λ result dir, result ++ allf !!! dir) acc dirs ∧
    (Mem.empty r.2 ∧ r.1 = h ∨ Mem.owned h0 r.1 r.2 ∧ b ≤ Mem.ptr r.2)) as Hloop.
  { clear Hrep. induction dirs as [|d dirs IH]; intros hc result acc Hrep Hlen Hres.
    { simpl. split; [done|]. destruct Hres as [(He & -> & ->)|(Ho & Hp & Hr)].
      - split; [by apply MemFacts.read_empty|by left].
      - split; [done|by right]. }
    cbn [foldl].
    destruct (MemFacts.rep_lookup h0 hc allm allf d Hrep) as [_ ->].
    assert (length (Mem.read hc result) = Mem.len result ∧
            Mem.read hc result = acc) as [Hrl Hracc].
    { destruct Hres as [(He & -> & _)|(Ho & _ & Hr)].
      - rewrite MemFacts.read_empty by done. by destruct He.
      - split; [|done]. apply (MemFacts.read_length h0). by right. }
    pose proof Hrep as [Hpre _ _ _].
    destruct (Mem.append spare hc result (allf !!! d)) as [h' result'] eqn:Happ.
    unfold Mem.append in Happ. case_decide as Hcap; injection Happ as <- <-.
    - (* in place *)
      destruct Hres as [([Hl Hc] & -> & ->)|(Ho & Hp & Hr)].
      + assert (allf !!! d = []) as Hnil.
        { apply nil_length_inv. lia. }
        assert (<[Mem.ptr result := Mem.read h result ++ allf !!! d ++
                   drop (Mem.len result + length (allf !!! d))
                        (Mem.array h result)]> h = h) as ->.
        { rewrite Hracc, Hnil, Hl. simpl. rewrite drop_0.
          apply MemFacts.write_same. }
        apply IH; [done..|].
        left. split_and!; [|done..]. split; simpl; [|done].
        rewrite Hnil, Hl. done.
      + edestruct (MemFacts.write_spec h0 hc result
          (Mem.mkSlice (Mem.ptr result)
             (Mem.len result + length (allf !!! d)) (Mem.cap result))
          (Mem.read hc result ++ allf !!! d)
          (drop (Mem.len result + length (allf !!! d)) (Mem.array hc result)))
          as (Hpre' & Hlen' & Ho' & Hr' & Hframe); [done|done|done| |done| |].
        { simpl. by rewrite length_app, Hrl. }
        { rewrite length_app, length_drop, Hrl. destruct Ho. lia. }
        rewrite <-app_assoc in Hpre', Hlen', Ho', Hr', Hframe.
        apply IH.
        * eapply MemFacts.rep_frame; [done..|]. intros d2 s2 Hs2.
          apply Hframe. specialize (Hb d2 s2 Hs2). lia.
        * lia.
        * right. split_and!; [done..|]. by rewrite Hr', Hr.
    - (* a new array *)
      set (n := Mem.len result + length (allf !!! d)) in *.
      set (c := n + spare (Mem.cap result) n).
      set (arr := Mem.read hc result ++ allf !!! d ++ replicate (c - n) "").
      assert (h0 `prefix_of` hc ++ [arr]) as Hpre' by (by apply prefix_app_r).
      assert (Mem.array (hc ++ [arr]) (Mem.mkSlice (length hc) n c) = arr) as Ha.
      { unfold Mem.array. simpl. by apply list_lookup_total_middle. }
      assert (length arr = c) as Hc.
      { apply MemFacts.new_array_length. by rewrite Hrl. }
      apply IH.
      + eapply MemFacts.rep_frame; [done..|]. intros d2 s2 Hs2.
        apply lookup_app_l. specialize (Hb d2 s2 Hs2). lia.
      + rewrite length_app. lia.
      + right. split_and!.
        * split; simpl.
          -- apply prefix_length in Hpre. lia.
          -- rewrite length_app. simpl. lia.
          -- unfold c. lia.
          -- trans (length arr); [f_equal; exact Ha|exact Hc].
        * simpl. lia.
        * trans (take n arr); [unfold Mem.read; f_equal; exact Ha|].
          unfold arr.
          rewrite app_assoc, take_app_length'; [by rewrite Hracc|].
          rewrite length_app, Hrl. done. }
  destruct (Hloop h Mem.nil []) as (H1 & H2 & H3); [done|done| |].
  { left. by split_and!. }
  split_and!; [done..| |].
  - rewrite <-H2. symmetry. apply (MemFacts.read_length h0).
    destruct H3 as [[? _]|[? _]]; auto.
  - destruct H3 as [?|[? ?]]; auto.
Qed.

Lemma shuffle_refines shuffleDirs shuffleInDir rnd :
  Mem.outcome_rel
    (λ '(h', result, rnd') '(out, rndf),
       Mem.read h' result = out ∧ rnd' = rndf ∧ h0 `prefix_of` h' ∧
       (Mem.len result = 0 ∨ length h0 ≤ Mem.ptr result))
    (Mem.shuffle srt spare h0 locations shuffleDirs shuffleInDir rnd)
    (shuffle srt (Mem.read h0 locations) shuffleDirs shuffleInDir rnd).
Proof.
  unfold Mem.shuffle, shuffle.
  pose proof (collect_refines (Mem.len locations) 0 h0 ∅ ∅ []
                eq_refl (MemFacts.rep_start h0)) as Hc.
  rewrite drop_0 in Hc.
  destruct (Mem.collect spare _ _ _ _ _ _) as [[[h1 allm] dirs]| |];
    destruct (collect _ _ _) as [[allf dirsf]| |]; simpl in Hc |- *; try done.
  destruct Hc as [<- Hrep].
  destruct (if shuffleDirs then Shuffle rnd dirs
            else (sort_Strings srt dirs, rnd)) as [dirs2 rnd2].
  assert (∃ h2 allf2 rnd3,
    (if shuffleInDir then Mem.shuffle_each h1 allm rnd2 dirs2
     else (Mem.sort_each srt h1 allm dirs2, rnd2)) = (h2, rnd3) ∧
    (if shuffleInDir then shuffle_each allf rnd2 dirs2
     else (sort_each srt allf dirs2, rnd2)) = (allf2, rnd3) ∧
    Mem.rep h0 h2 allm allf2) as (h2 & allf2 & rnd3 & -> & -> & Hrep2).
  { destruct shuffleInDir.
    - destruct (shuffle_each_refines h1 allm allf rnd2 dirs2 Hrep) as [Hr Hrep2].
      destruct (Mem.shuffle_each h1 allm rnd2 dirs2) as [h2 rnd3].
      destruct (shuffle_each allf rnd2 dirs2) as [allf2 rnd3'].
      simpl in Hr, Hrep2. subst rnd3'. by exists h2, allf2, rnd3.
    - eexists _, _, _. split_and!; [done..|]. by apply sort_each_refines. }
  destruct (flatten_refines h2 allm allf2 dirs2 Hrep2)
    as (Hrep3 & Hread & Hlen & Hres).
  destruct (Mem.flatten spare h2 allm dirs2) as [h3 result].
  simpl in Hrep3, Hread, Hlen, Hres.
  assert (length (Mem.read h0 locations) = Mem.len locations) as ->.
  { unfold Mem.read. rewrite length_take. destruct Hvalid. lia. }
  rewrite <-Hlen. case_decide; [done|]. simpl.
  split_and!; [done..|apply Hrep3|].
  destruct Hres as [[[? _] _]|[[? _ _ _] _]]; auto.
Qed.

End MemRefines.

(** ** The random source is only drawn from *)

Lemma Shuffle_draws {A} rnd (xs : list A) :
  draws (Shuffle rnd xs).2 = draws rnd ∧
  consumed rnd ≤ consumed (Shuffle rnd xs).2.
Proof.
  unfold Shuffle.
  destruct (Shuffle_from_consumed (length xs - 1) rnd xs) as [-> ->].
  split; [done|lia].
Qed.

Lemma shuffle_each_draws all rnd dirs :
  draws (shuffle_each all rnd dirs).2 = draws rnd ∧
  consumed rnd ≤ consumed (shuffle_each all rnd dirs).2.
Proof.
  unfold shuffle_each. revert all rnd.
  induction dirs as [|d dirs IH]; intros all rnd; [done|].
  cbn [foldl].
  pose proof (Shuffle_draws rnd (all !!! d)) as [Hd Hc].
  destruct (Shuffle rnd (all !!! d)) as [thisDir rnd']. simpl in Hd, Hc.
  destruct (IH (alter (λ _, thisDir) d all) rnd') as [-> ?].
  split; [done|lia].
Qed.

Lemma shuffle_draws srt locations shuffleDirs shuffleInDir rnd result rnd' :
  shuffle srt locations shuffleDirs shuffleInDir rnd = Ok (result, rnd') →
  draws rnd' = draws rnd ∧ consumed rnd ≤ consumed rnd'.
Proof.
  unfold shuffle.
  destruct (collect locations ∅ []) as [[all dirs]| |]; simpl; [|done..].
  assert (∃ dirs2 rnd2,
    (if shuffleDirs then Shuffle rnd dirs else (sort_Strings srt dirs, rnd))
    = (dirs2, rnd2) ∧ draws rnd2 = draws rnd ∧ consumed rnd ≤ consumed rnd2)
    as (dirs2 & rnd2 & -> & Hd2 & Hc2).
  { destruct shuffleDirs; [|by eexists _, _].
    pose proof (Shuffle_draws rnd dirs).
    destruct (Shuffle rnd dirs) as [dirs2 rnd2]. by exists dirs2, rnd2. }
  assert (∃ all2 rnd3,
    (if shuffleInDir then shuffle_each all rnd2 dirs2
     else (sort_each srt all dirs2, rnd2)) = (all2, rnd3) ∧
    draws rnd3 = draws rnd2 ∧ consumed rnd2 ≤ consumed rnd3)
    as (all2 & rnd3 & -> & Hd3 & Hc3).
  { destruct shuffleInDir; [|by eexists _, _].
    pose proof (shuffle_each_draws all rnd2 dirs2).
    destruct (shuffle_each all rnd2 dirs2) as [all2 rnd3]. by exists all2, rnd3. }
  case_decide; [done|]. intros [= _ <-]. split; [congruence|lia].
Qed.

(** C8: [shuffle] writes to no array that exists when it is called, so
    the caller's slice reads as before; what it returns is nil or lies in
    an array allocated during the call, and holds the result of the engine
    on sequences; the random source is only drawn from, and not at all when
    both flags are false. *)
Theorem shuffle_frame srt spare h locations shuffleDirs shuffleInDir rnd :
  Mem.valid h locations →
  (Forall (λ l, returns (Split l)) (Mem.read h locations) →
   returns (Mem.shuffle srt spare h locations shuffleDirs shuffleInDir rnd)) ∧
  ∀ h' result rnd',
    Mem.shuffle srt spare h locations shuffleDirs shuffleInDir rnd
    = Ok (h', result, rnd') →
    (∃ fresh, h' = h ++ fresh) ∧
    Mem.read h' locations = Mem.read h locations ∧
    (Mem.len result = 0 ∨ length h ≤ Mem.ptr result) ∧
    shuffle srt (Mem.read h locations) shuffleDirs shuffleInDir rnd
    = Ok (Mem.read h' result, rnd') ∧
    draws rnd' = draws rnd ∧ consumed rnd ≤ consumed rnd' ∧
    (shuffleDirs = false → shuffleInDir = false → rnd' = rnd).
Proof.
  intros Hvalid.
  pose proof (shuffle_refines srt spare h locations Hvalid
                shuffleDirs shuffleInDir rnd) as Href.
  split.
  - intros Hsplit.
    destruct (shuffle_returns srt _ shuffleDirs shuffleInDir rnd Hsplit)
      as [[out rndf] Hf].
    rewrite Hf in Href.
    destruct (Mem.shuffle _ _ _ _ _ _ _) as [a| |]; [by exists a|done..].
  - intros h' result rnd' Hm. rewrite Hm in Href.
    destruct (shuffle srt _ _ _ _) as [[out rndf]| |] eqn:Hf; [|done..].
    destruct Href as (<- & <- & Hpre & Hres).
    pose proof (shuffle_draws _ _ _ _ _ _ _ Hf) as [Hd Hc].
    split_and!; [done| |done..|].
    + unfold Mem.read. by rewrite (caller_array h locations Hvalid h' Hpre).
    + intros -> ->. apply shuffle_blocks in Hf as (dirs & g & Hb).
      by apply (blocks_rnd _ _ _ _ _ _ _ _ Hb).
Qed.

Lemma shuffle_frame_witness :
  ∃ h' result rnd',
    Mem.shuffle go_sort (λ _ n, n) [["file:///x/y"]; playlist]
      (Mem.mkSlice 1 4 4) true true seed0 = Ok (h', result, rnd') ∧
    (∃ fresh, h' = [["file:///x/y"]; playlist] ++ fresh) ∧
    Mem.read h' (Mem.mkSlice 1 4 4) = playlist ∧
    (Mem.len result = 0 ∨ 2 ≤ Mem.ptr result).
Proof.
  assert (Mem.valid [["file:///x/y"]; playlist] (Mem.mkSlice 1 4 4)) as Hvalid.
  { split; simpl; lia. }
  destruct (shuffle_frame go_sort (λ _ n, n) _ _ true true seed0 Hvalid)
    as [Hret Hframe].
  destruct Hret as [[[h' result] rnd'] H]; [repeat constructor; by eexists|].
  destruct (Hframe _ _ _ H) as (Hpre & Hread & Hres & _).
  exists h', result, rnd'.
  split; [exact H|]. split; [exact Hpre|]. split; [exact Hread|exact Hres].
Defined.

(** ** The examples of the documentation, evaluated *)

Example QueryUnescape_example :
  url.QueryUnescape "a%20b+c%2Fd" = inl "a b c/d" ∧
  url.QueryUnescape "song%zz" = inr (url.mkEscapeError "%zz").
Proof. done. Qed.

Example filepath_Split_example :
  filepath.Split "/music/Artist/song.mp3" = ("/music/Artist/", "song.mp3") ∧
  filepath.Split "song.mp3" = ("", "song.mp3").
Proof. done. Qed.

Example Text_example :
  Text "file:///music/a+b.mp3" = Ok "/music/a b.mp3" ∧
  Text "http://host/a.mp3" = Ok "http://host/a.mp3" ∧
  Text "file:///music/100%.mp3" = Fatal "unescape".
Proof. done. Qed.

Example shuffle_sorted_example rnd :
  shuffle go_sort playlist false false rnd
  = Ok (["file:///A/song1"; "file:///A/song2";
         "file:///B/song1"; "file:///B/song2"], rnd).
Proof. done. Qed.

Example shuffle_single_member_example :
  fst <$> shuffle go_sort ["file:///A/only"] true true seed0
  = Ok ["file:///A/only"] ∧
  fst <$> shuffle go_sort ["file:///A/only"] false false seed1
  = Ok ["file:///A/only"].
Proof. done. Qed.

(** * Further properties of the engine *)

(** ** Which failure *)

Lemma collect_first_failure pre l post all dirs :
  Forall (λ l, returns (Split l)) pre →
  ¬ returns (Split l) →
  collect (pre ++ l :: post) all dirs = Split l ≫= λ _, Ok (all, dirs).
Proof.
  intros Hpre Hl. revert all dirs.
  induction Hpre as [|l' pre [[dir file] Hl'] _ IH]; intros all dirs.
  - cbn [app collect]. destruct (Split l) as [a| |]; [|done..].
    destruct Hl. by exists a.
  - cbn [app collect]. rewrite Hl'. cbn. rewrite IH.
    destruct (Split l) as [a| |]; [|done..]. destruct Hl. by exists a.
Qed.

Lemma collect_all_first_failure pre l post all dirs :
  Forall (λ l, returns (Split l)) pre →
  ¬ returns (Split l) →
  collect_all (pre ++ l :: post) all dirs = Split l ≫= λ _, Ok (all, dirs).
Proof.
  intros Hpre Hl. revert all dirs.
  induction Hpre as [|l' pre [[dir file] Hl'] _ IH]; intros all dirs.
  - cbn [app collect_all]. destruct (Split l) as [a| |]; [|done..].
    destruct Hl. by exists a.
  - cbn [app collect_all]. rewrite Hl'. cbn. rewrite IH.
    destruct (Split l) as [a| |]; [|done..]. destruct Hl. by exists a.
Qed.

(** The first location, in input order, that does not split decides how
    [shuffle] ends: with the fatal error of the decoder when its
    percent-encoding is malformed, with the slice panic when it decodes to
    fewer than 7 bytes; what follows it is not looked at. *)
Theorem shuffle_first_failure srt pre l post shuffleDirs shuffleInDir rnd :
  Forall (λ l, returns (Split l)) pre →
  ¬ returns (Split l) →
  shuffle srt (pre ++ l :: post) shuffleDirs shuffleInDir rnd
  = match url.QueryUnescape l with
    | inr _ => Fatal "unescape"
    | inl _ => Panic "slice bounds out of range"
    end.
Proof.
  intros Hpre Hl. unfold shuffle.
  rewrite (collect_first_failure pre l post ∅ [] Hpre Hl).
  assert (Split l = Text l ≫= λ _, Panic "") as Hs.
  { unfold Split in *. destruct (Text l) as [text| |]; [|done..].
    destruct Hl. by eexists. }
  rewrite Hs. unfold Text.
  destruct (url.QueryUnescape l) as [decoded|err] eqn:Hd.
  - destruct (String.length decoded <? 7) eqn:Hlen; [done|].
    destruct Hl. apply Split_returns_iff. exists decoded. split; [done|].
    by apply Nat.ltb_ge.
  - done.
Qed.

Lemma shuffle_first_failure_witness :
  shuffle go_sort ["file:///A/1"; "x.mp3"; "file:///A/%zz"] true false seed0
  = Panic "slice bounds out of range".
Proof.
  refine (shuffle_first_failure go_sort ["file:///A/1"] "x.mp3"
            ["file:///A/%zz"] true false seed0 _ _).
  - repeat constructor. by eexists.
  - by intros [? ?].
Defined.

(** ** One run per directory *)

Lemma runs_replicate k d tl :
  head tl ≠ Some d → runs (replicate (S k) d ++ tl) = d :: runs tl.
Proof.
  intros Hd. induction k as [|k IH].
  - cbn [replicate app runs]. by rewrite decide_False.
  - change (replicate (S (S k)) d ++ tl) with (d :: (replicate (S k) d ++ tl)).
    cbn [runs]. rewrite decide_True by done. exact IH.
Qed.

Lemma fmap_const_replicate {A B} (f : A → B) (l : list A) k :
  Forall (λ a, f a = k) l → f <$> l = replicate (length l) k.
Proof.
  induction 1 as [|a l Ha _ IH]; [done|]. cbn. by rewrite Ha, IH.
Qed.

Lemma runs_blocks dirs (g : string → list Location) :
  NoDup dirs →
  (∀ d, d ∈ dirs → g d ≠ [] ∧ Forall (λ a, dirOf a = d) (g d)) →
  runs (dirOf <$> (dirs ≫= g)) = dirs.
Proof.
  induction 1 as [|d ds Hd Hn IH]; intros Hg; [done|].
  rewrite bind_cons, fmap_app.
  destruct (Hg d) as [Hne Hkey]; [by left|].
  rewrite (fmap_const_replicate _ _ _ Hkey).
  destruct (g d) as [|a gd] eqn:Hgd; [done|]. cbn [length].
  rewrite runs_replicate.
  - f_equal. apply IH. intros d' Hd'. apply Hg. by right.
  - destruct ds as [|d2 ds']; [done|].
    destruct (Hg d2) as [Hne2 Hkey2]; [right; by left|].
    rewrite bind_cons. destruct (g d2) as [|a2 gd2]; [done|].
    cbn. apply Forall_cons_1 in Hkey2 as [-> _].
    intros [= ->]. apply Hd. by left.
Qed.

(** For both flags the directories of the input are the runs of the
    result, each directory once: the result has as many runs as the input
    has directories. *)
Theorem shuffle_one_run_per_dir srt locations shuffleDirs shuffleInDir rnd
    result rnd' :
  shuffle srt locations shuffleDirs shuffleInDir rnd = Ok (result, rnd') →
  NoDup (runs (dirOf <$> result)) ∧
  (∀ d, d ∈ runs (dirOf <$> result) ↔ d ∈ dirOf <$> locations) ∧
  length (runs (dirOf <$> result)) = length (remove_dups (dirOf <$> locations)).
Proof.
  intros (dirs & g & Hb)%shuffle_blocks.
  assert (runs (dirOf <$> result) = dirs) as ->.
  { rewrite (blocks_out _ _ _ _ _ _ _ _ Hb).
    apply runs_blocks; [apply Hb|]. intros d Hd. split.
    - apply (blocks_dirs _ _ _ _ _ _ _ _ Hb) in Hd.
      apply list_elem_of_fmap in Hd as (l & -> & Hl).
      intros Hnil.
      assert (l ∈ g (dirOf l)) as Hin.
      { rewrite (blocks_group _ _ _ _ _ _ _ _ Hb).
        by apply list_elem_of_filter. }
      rewrite Hnil in Hin. by apply elem_of_nil in Hin.
    - apply Forall_forall. intros a Ha. by eapply blocks_member. }
  pose proof (blocks_NoDup _ _ _ _ _ _ _ _ Hb) as Hn.
  pose proof (blocks_dirs _ _ _ _ _ _ _ _ Hb) as Hd.
  split_and!; [done..|].
  apply Permutation_length, NoDup_Permutation; [done|apply NoDup_remove_dups|].
  intros d. by rewrite Hd, elem_of_remove_dups.
Qed.

Lemma shuffle_one_run_per_dir_witness :
  runs (dirOf <$> ["file:///B/song1"; "file:///B/song2";
                   "file:///A/song1"; "file:///A/song2"]) = ["/B/"; "/A/"] ∧
  length (remove_dups (dirOf <$> playlist)) = 2.
Proof.
  destruct (shuffle_one_run_per_dir go_sort playlist true true seed0
              ["file:///B/song1"; "file:///B/song2";
               "file:///A/song1"; "file:///A/song2"]
              (mkRand (draws seed0) 3) eq_refl) as (_ & _ & Hlen).
  split; [reflexivity|]. rewrite <-Hlen. reflexivity.
Defined.

(** ** How many draws *)

Lemma Shuffle_consumed {A} rnd (xs : list A) :
  consumed (Shuffle rnd xs).2 = consumed rnd + (length xs - 1).
Proof. unfold Shuffle. by destruct (Shuffle_from_consumed (length xs - 1) rnd xs). Qed.

Lemma shuffle_each_consumed all rnd dirs :
  (∀ d, d ∈ dirs → 1 ≤ length (all !!! d)) →
  consumed (shuffle_each all rnd dirs).2 + length dirs
  = consumed rnd + length (dirs ≫= λ d, all !!! d).
Proof.
  revert all rnd. induction dirs as [|d dirs IH]; intros all rnd Hne.
  { simpl. lia. }
  pose proof (shuffle_each_perm all rnd [d]) as Hstep.
  unfold shuffle_each in *. cbn [foldl] in *.
  pose proof (Shuffle_consumed rnd (all !!! d)) as Hc.
  destruct (Shuffle rnd (all !!! d)) as [thisDir rnd1]. cbn [fst snd] in *.
  rewrite bind_cons, length_app. cbn [length].
  assert (length (dirs ≫= λ d', alter (λ _, thisDir) d all !!! d')
          = length (dirs ≫= λ d', all !!! d')) as Hlen.
  { apply Permutation_length, bind_ext_perm. intros d'. apply Hstep. }
  assert (1 ≤ length (all !!! d)) by (apply Hne; by left).
  specialize (IH (alter (λ _, thisDir) d all) rnd1).
  rewrite Hlen in IH. rewrite Nat.add_succ_r, IH; [lia|].
  intros d' Hd'. destruct (Hstep d') as [Hp _]. rewrite Hp. apply Hne. by right.
Qed.

(** [shuffle] draws once per directory but one when it shuffles the
    directories, and once per location but one in each directory when it
    shuffles within them: with both flags, one draw less than there are
    locations. *)
Theorem shuffle_draw_count srt locations shuffleDirs shuffleInDir rnd
    result rnd' :
  shuffle srt locations shuffleDirs shuffleInDir rnd = Ok (result, rnd') →
  consumed rnd'
  = consumed rnd
    + (if shuffleDirs
       then length (remove_dups (dirOf <$> locations)) - 1 else 0)
    + (if shuffleInDir
       then length locations - length (remove_dups (dirOf <$> locations))
       else 0).
Proof.
  unfold shuffle.
  destruct (collect locations ∅ []) as [[all dirs]| |] eqn:Hc; [|done..].
  apply (collect_grouped _ []) in Hc as [Hg _]; [|apply grouped_start].
  simpl in Hg |- *.
  pose proof Hg as [Hm Hk Hd Hn].
  assert (length dirs = length (remove_dups (dirOf <$> locations))) as <-.
  { apply Permutation_length, NoDup_Permutation; [done|apply NoDup_remove_dups|].
    intros d. by rewrite Hd, elem_of_remove_dups. }
  assert (∃ dirs2 rnd2,
    (if shuffleDirs then Shuffle rnd dirs else (sort_Strings srt dirs, rnd))
    = (dirs2, rnd2) ∧ dirs2 ≡ₚ dirs ∧
    consumed rnd2
    = consumed rnd + (if shuffleDirs then length dirs - 1 else 0))
    as (dirs2 & rnd2 & -> & Hdirs & Hc2).
  { destruct shuffleDirs.
    - pose proof (Shuffle_perm rnd dirs). pose proof (Shuffle_consumed rnd dirs).
      destruct (Shuffle rnd dirs) as [dirs2 rnd2]. by exists dirs2, rnd2.
    - eexists _, _. split_and!; [done|apply sort_by_perm|simpl; lia]. }
  assert (∃ all2 rnd3,
    (if shuffleInDir then shuffle_each all rnd2 dirs2
     else (sort_each srt all dirs2, rnd2)) = (all2, rnd3) ∧
    consumed rnd3
    = consumed rnd2
      + (if shuffleInDir then length locations - length dirs else 0))
    as (all2 & rnd3 & -> & Hc3).
  { destruct shuffleInDir; [|eexists _, _; split; [done|simpl; lia]].
    pose proof (shuffle_each_consumed all rnd2 dirs2) as Hcount.
    pose proof (shuffle_each_draws all rnd2 dirs2) as [_ Hmono].
    destruct (shuffle_each all rnd2 dirs2) as [all2 rnd3].
    exists all2, rnd3. split; [done|]. cbn [snd] in Hcount, Hmono.
    assert (length (dirs2 ≫= λ d, all !!! d) = length locations) as Hlen.
    { rewrite <-flatten_bind. by apply Permutation_length, (flatten_perm _ all dirs). }
    rewrite Hlen, (Permutation_length Hdirs) in Hcount.
    assert (consumed rnd3 + length dirs = consumed rnd2 + length locations)
      as Heq; [|lia].
    apply Hcount. intros d Hdin. rewrite Hdirs, Hd in Hdin.
    apply list_elem_of_fmap in Hdin as (l & -> & Hl).
    rewrite Hm.
    assert (l ∈ filter (λ l0, dirOf l0 = dirOf l) locations) as Hin
      by (by apply list_elem_of_filter).
    destruct (filter _ locations); [by apply elem_of_nil in Hin|simpl; lia]. }
  case_decide; [done|]. intros [= _ <-]. lia.
Qed.

Lemma shuffle_draw_count_witness :
  ∃ result rnd', shuffle go_sort playlist true true seed0 = Ok (result, rnd') ∧
    consumed rnd' = 3.
Proof.
  exists ["file:///B/song1"; "file:///B/song2";
          "file:///A/song1"; "file:///A/song2"], (mkRand (draws seed0) 3).
  split; [reflexivity|].
  exact (shuffle_draw_count go_sort playlist true true seed0 _ _ eq_refl).
Defined.

(** ** The sorted order is canonical *)

Lemma StronglySorted_and {A} (R1 R2 : relation A) l :
  StronglySorted R1 l → StronglySorted R2 l →
  StronglySorted (λ a b, R1 a b ∧ R2 a b) l.
Proof.
  induction 1 as [|x l Hs IH Hx]; intros H2; [constructor|].
  apply StronglySorted_cons in H2 as [Hx2 Hs2].
  constructor; [by apply IH|].
  rewrite Forall_forall in Hx, Hx2 |- *. auto.
Qed.

Lemma Split_Text l dir file : Split l = Ok (dir, file) → Text l = Ok (dir +:+ file).
Proof.
  intros (text & Ht & Hs)%Split_Ok.
  by destruct (filepath_Split_spec _ _ _ Hs) as (<- & _).
Qed.

Lemma Text_keys a b :
  returns (Split a) → returns (Split b) →
  dirOf a = dirOf b → fileOf a = fileOf b → Text a = Text b.
Proof.
  intros Ha%Split_returns Hb%Split_returns Hd Hf.
  rewrite (Split_Text _ _ _ Ha), (Split_Text _ _ _ Hb). by rewrite Hd, Hf.
Qed.

(** With both flags false the result is in order of directory, then of
    file name. *)
Lemma blocks_sorted_both locs rnd rnd' out dirs g :
  blocks locs false false rnd rnd' out dirs g →
  StronglySorted
    (λ a b, String.le (dirOf a) (dirOf b) ∧
            (dirOf a = dirOf b → String.le (fileOf a) (fileOf b))) out.
Proof.
  intros Hb. rewrite (blocks_out _ _ _ _ _ _ _ _ Hb).
  apply (StronglySorted_bind (λ d1 d2, String.le d1 d2 ∧ d1 ≠ d2)).
  - apply StronglySorted_and.
    + by apply (blocks_dirs_sorted _ _ _ _ _ _ _ _ Hb).
    + apply NoDup_StronglySorted, Hb.
  - intros d _.
    eapply StronglySorted_weaken;
      [|by apply (blocks_group_sorted _ _ _ _ _ _ _ _ Hb)].
    intros a b Ha Hb' Hless.
    eapply blocks_member in Ha as [Ha _]; [|done].
    eapply blocks_member in Hb' as [Hb' _]; [|done].
    split; [by rewrite Ha, Hb'|].
    intros _. apply ltb_false_le. by rewrite <-less_file_ltb.
  - intros d1 d2 a b [Hle Hne] Ha Hb'.
    eapply blocks_member in Ha as [-> _]; [|done].
    eapply blocks_member in Hb' as [-> _]; done.
Qed.

(** A playlist whose locations decode to different paths has one
    arrangement only that is in order of directory, then of file name. *)
Lemma sorted_both_unique (locs out1 out2 : list Location) :
  (∀ a b, a ∈ locs → b ∈ locs → Text a = Text b → a = b) →
  Forall (λ l, returns (Split l)) locs →
  out1 ≡ₚ locs → out2 ≡ₚ locs →
  StronglySorted
    (λ a b, String.le (dirOf a) (dirOf b) ∧
            (dirOf a = dirOf b → String.le (fileOf a) (fileOf b))) out1 →
  StronglySorted
    (λ a b, String.le (dirOf a) (dirOf b) ∧
            (dirOf a = dirOf b → String.le (fileOf a) (fileOf b))) out2 →
  out1 = out2.
Proof.
  intros Hinj Hsplit Hp1 Hp2 Hs1 Hs2.
  eapply StronglySorted_unique_strong; [|exact Hs1|exact Hs2|].
  - intros a b Ha Hb [Hd1 Hf1] [Hd2 Hf2].
    rewrite Hp1 in Ha. rewrite Hp2 in Hb.
    assert (dirOf a = dirOf b) as Hd by (by apply (anti_symm String.le)).
    apply Hinj; [done..|].
    rewrite Forall_forall in Hsplit.
    apply Text_keys; auto.
    apply (anti_symm String.le); auto.
  - by rewrite Hp1, Hp2.
Qed.

(** With both flags false the result does not depend on the order of the
    input, as long as no two different locations decode to the same path:
    two playlists with the same locations come out the same. *)
Theorem shuffle_order_independent srt locs1 locs2 rnd1 rnd2 out rnd1' :
  locs1 ≡ₚ locs2 →
  (∀ a b, a ∈ locs1 → b ∈ locs1 → Text a = Text b → a = b) →
  shuffle srt locs1 false false rnd1 = Ok (out, rnd1') →
  shuffle srt locs2 false false rnd2 = Ok (out, rnd2).
Proof.
  intros Hperm Hinj H1.
  apply shuffle_blocks in H1 as (dirs1 & g1 & Hb1).
  pose proof (blocks_split _ _ _ _ _ _ _ _ Hb1) as Hsplit.
  assert (Forall (λ l, returns (Split l)) locs2) as Hsplit2
    by (by rewrite <-Hperm).
  destruct (shuffle_returns srt locs2 false false rnd2 Hsplit2)
    as [[out2 rnd2'] H2].
  rewrite H2. apply shuffle_blocks in H2 as (dirs2 & g2 & Hb2).
  rewrite (blocks_rnd _ _ _ _ _ _ _ _ Hb2) by done.
  do 2 f_equal. symmetry.
  apply (sorted_both_unique locs1); [done..| | | |].
  - by eapply blocks_perm.
  - rewrite Hperm. by eapply blocks_perm.
  - by eapply blocks_sorted_both.
  - by eapply blocks_sorted_both.
Qed.

Lemma shuffle_order_independent_witness :
  shuffle go_sort (reverse playlist) false false seed1
  = Ok (["file:///A/song1"; "file:///A/song2";
         "file:///B/song1"; "file:///B/song2"], seed1).
Proof.
  apply (shuffle_order_independent go_sort playlist (reverse playlist)
           seed0 seed1 _ seed0).
  - by rewrite reverse_Permutation.
  - intros a b Ha Hb.
    repeat (apply elem_of_cons in Ha as [->|Ha]);
      try (by apply elem_of_nil in Ha);
      repeat (apply elem_of_cons in Hb as [->|Hb]);
      try (by apply elem_of_nil in Hb); done.
  - reflexivity.
Defined.

(** With both flags false, sorting what has been sorted changes nothing,
    as long as no two different locations decode to the same path. *)
Theorem shuffle_idempotent srt locations rnd rnd2 out rnd' :
  (∀ a b, a ∈ locations → b ∈ locations → Text a = Text b → a = b) →
  shuffle srt locations false false rnd = Ok (out, rnd') →
  shuffle srt out false false rnd2 = Ok (out, rnd2).
Proof.
  intros Hinj H.
  apply shuffle_blocks in H as (dirs & g & Hb).
  pose proof (blocks_split _ _ _ _ _ _ _ _ Hb) as Hsplit.
  pose proof (blocks_perm _ _ _ _ _ _ _ _ Hb) as Hperm.
  assert (Forall (λ l, returns (Split l)) out) as Hsplit2
    by (by rewrite Hperm).
  destruct (shuffle_returns srt out false false rnd2 Hsplit2)
    as [[out2 rnd2'] H2].
  rewrite H2. apply shuffle_blocks in H2 as (dirs2 & g2 & Hb2).
  rewrite (blocks_rnd _ _ _ _ _ _ _ _ Hb2) by done.
  do 2 f_equal. symmetry.
  apply (sorted_both_unique locations); [done..| |by eapply blocks_sorted_both
                                         |by eapply blocks_sorted_both].
  etrans; [by eapply blocks_perm|done].
Qed.

Lemma shuffle_idempotent_witness :
  shuffle go_sort ["file:///A/song1"; "file:///A/song2";
                   "file:///B/song1"; "file:///B/song2"] false false seed1
  = Ok (["file:///A/song1"; "file:///A/song2";
         "file:///B/song1"; "file:///B/song2"], seed1).
Proof.
  apply (shuffle_idempotent go_sort playlist seed0 seed1 _ seed0).
  - intros a b Ha Hb.
    repeat (apply elem_of_cons in Ha as [->|Ha]);
      try (by apply elem_of_nil in Ha);
      repeat (apply elem_of_cons in Hb as [->|Hb]);
      try (by apply elem_of_nil in Hb); done.
  - reflexivity.
Defined.

(** ** The in-place variant of rhythmbox.go *)

(** Its first loop: the groups are those of [collect], and [dirs] lists
    the directory of every location, in input order. *)
Lemma collect_all_spec rest seen all dirs all' dirs' :
  (∀ d, all !!! d = filter (λ l, dirOf l = d) seen) →
  collect_all rest all dirs = Ok (all', dirs') →
  (∀ d, all' !!! d = filter (λ l, dirOf l = d) (seen ++ rest)) ∧
  dirs' = dirs ++ (dirOf <$> rest) ∧
  Forall (λ l, returns (Split l)) rest.
Proof.
  revert seen all dirs. induction rest as [|l rest IH]; intros seen all dirs Hm.
  - intros [= <- <-]. by rewrite !app_nil_r.
  - cbn [collect_all]. destruct (Split l) as [[dir file]| |] eqn:Hl; [|done..].
    intros Hc. pose proof (Split_dirOf _ _ _ Hl) as Hdir.
    apply (IH (seen ++ [l])) in Hc as (Hm' & -> & Hr).
    + rewrite <-!app_assoc in Hm'. rewrite <-app_assoc, fmap_cons, Hdir.
      split_and!; [done..|]. constructor; [|done]. rewrite Hl. by eexists.
    + intros d. rewrite filter_app. destruct (decide (dir = d)) as [->|Hne].
      * rewrite lookup_total_insert_eq, Hm. f_equal.
        by rewrite filter_cons, decide_True.
      * rewrite lookup_total_insert_ne, Hm by done.
        rewrite filter_cons, decide_False by congruence.
        by rewrite filter_nil, app_nil_r.
Qed.

Lemma collect_all_returns rest all dirs :
  Forall (λ l, returns (Split l)) rest → returns (collect_all rest all dirs).
Proof.
  intros Hr. revert all dirs.
  induction Hr as [|l rest [[dir file] Hl] _ IH]; intros all dirs.
  - by eexists.
  - cbn [collect_all]. rewrite Hl. apply IH.
Qed.

(** Where no directory comes twice, the two first loops build the same. *)
Lemma collect_all_distinct locs all dirs :
  NoDup (dirOf <$> locs) →
  (∀ l, l ∈ locs → all !! dirOf l = None) →
  collect_all locs all dirs = collect locs all dirs.
Proof.
  revert all dirs. induction locs as [|l locs IH]; intros all dirs; [done|].
  rewrite fmap_cons. intros [Hl Hn]%NoDup_cons Hnone.
  cbn [collect_all collect].
  destruct (Split l) as [[dir file]| |] eqn:Hs; [|done..]. cbn.
  pose proof (Split_dirOf _ _ _ Hs) as Hdir.
  rewrite decide_False.
  - apply IH; [done|]. intros l' Hl'. rewrite lookup_insert_ne.
    + apply Hnone. by right.
    + intros Heq. apply Hl. rewrite Hdir, Heq. apply list_elem_of_fmap. eauto.
  - rewrite <-Hdir, Hnone by (by left). by intros [? ?].
Qed.

Lemma copy_length {A} (dst src : list A) : length (copy dst src) = length dst.
Proof. unfold copy. rewrite length_app, length_take, length_drop. lia. Qed.

Lemma copy_covering {A} (dst src : list A) :
  length dst ≤ length src → copy dst src = take (length dst) src.
Proof. intros Hle. unfold copy. by rewrite drop_ge, app_nil_r. Qed.

Lemma copy_same_length {A} (dst src : list A) :
  length src = length dst → copy dst src = src.
Proof.
  intros Hlen. rewrite copy_covering by lia. apply take_ge. lia.
Qed.

(** Listing a group once for each of its members takes at least as many
    places as there are members. *)
Lemma bind_groups_length (locs sub : list Location) :
  sub ⊆ locs →
  length sub
  ≤ length ((dirOf <$> sub) ≫= (λ d, filter (λ l, dirOf l = d) locs)).
Proof.
  induction sub as [|l sub IH]; intros Hsub; [simpl; lia|].
  rewrite fmap_cons, bind_cons, length_app. cbn [length].
  assert (l ∈ filter (λ l', dirOf l' = dirOf l) locs) as Hl.
  { apply list_elem_of_filter. split; [done|]. apply Hsub. by left. }
  assert (sub ⊆ locs) as Hsub' by (intros x Hx; apply Hsub; by right).
  specialize (IH Hsub').
  destruct (filter (λ l', dirOf l' = dirOf l) locs);
    [by apply elem_of_nil in Hl|]. cbn [length]. lia.
Qed.

Lemma StronglySorted_take {A} (R : relation A) n l :
  StronglySorted R l → StronglySorted R (take n l).
Proof.
  intros Hs. rewrite <-(take_drop n l) in Hs.
  by apply StronglySorted_app_1_l in Hs.
Qed.

Section InPlace.
Context (srt : Sorter).

(** The slice after the in-place variant: the groups, each a rearrangement
    of the locations of its directory, are listed once for every location
    of the directory, and the slice keeps the first [len(locations)]
    elements of that listing. *)
Lemma shuffle_in_place_listing locs sd si rnd out rnd' :
  shuffle_in_place srt locs sd si rnd = Ok (out, rnd') →
  ∃ dirs g,
    dirs ≡ₚ dirOf <$> locs ∧
    (∀ d, g d ≡ₚ filter (λ l, dirOf l = d) locs) ∧
    (sd = false → StronglySorted String.le dirs) ∧
    length locs ≤ length (dirs ≫= g) ∧
    out = take (length locs) (dirs ≫= g).
Proof.
  unfold shuffle_in_place. intros H.
  destruct (collect_all locs ∅ []) as [[all dirs]| |] eqn:Hc; [|done..].
  apply (collect_all_spec _ []) in Hc as (Hm & -> & Hsplit);
    [|intros d; by rewrite lookup_total_empty].
  simpl in Hm, H.
  destruct (if sd then Shuffle rnd (dirOf <$> locs)
            else (sort_Strings srt (dirOf <$> locs), rnd))
    as [dirs2 rnd2] eqn:Hd2.
  destruct (if si then shuffle_each all rnd2 dirs2
            else (sort_each srt all dirs2, rnd2)) as [all2 rnd3] eqn:Ha2.
  injection H as <- <-.
  assert (dirs2 ≡ₚ dirOf <$> locs) as Hdirs.
  { destruct sd.
    - pose proof (Shuffle_perm rnd (dirOf <$> locs)) as Hp.
      by rewrite Hd2 in Hp.
    - injection Hd2 as <- _. apply sort_by_perm. }
  assert (∀ d, all2 !!! d ≡ₚ filter (λ l, dirOf l = d) locs) as Hall.
  { intros d. rewrite <-Hm. destruct si.
    - pose proof (shuffle_each_perm all rnd2 dirs2 d) as [Hp _].
      by rewrite Ha2 in Hp.
    - injection Ha2 as <- _. apply sort_each_perm. }
  assert (length locs ≤ length (dirs2 ≫= (λ d, all2 !!! d))) as Hlen.
  { etrans; [apply (bind_groups_length locs locs); done|].
    apply Nat.eq_le_incl, Permutation_length.
    rewrite Hdirs. by apply bind_ext_perm. }
  exists dirs2, (λ d, all2 !!! d). split_and!; [done..| |done|].
  - intros ->. injection Hd2 as <- _. apply sort_Strings_sorted.
  - rewrite flatten_bind. apply copy_covering. by rewrite <-flatten_bind in *.
Qed.

End InPlace.

(** The in-place variant returns exactly when every location splits, and
    then the slice has the length it had, holds only locations it held, and
    is in the order of the directories when they are sorted. *)
Theorem shuffle_in_place_contents srt locations shuffleDirs shuffleInDir rnd :
  (returns (shuffle_in_place srt locations shuffleDirs shuffleInDir rnd) ↔
   Forall (λ l, returns (Split l)) locations) ∧
  ∀ out rnd',
    shuffle_in_place srt locations shuffleDirs shuffleInDir rnd
    = Ok (out, rnd') →
    length out = length locations ∧
    out ⊆ locations ∧
    (shuffleDirs = false → StronglySorted String.le (dirOf <$> out)).
Proof.
  split.
  - split.
    + intros [[out rnd'] H]. unfold shuffle_in_place in H.
      destruct (collect_all locations ∅ []) as [[all dirs]| |] eqn:Hc;
        [|done..].
      by apply (collect_all_spec _ []) in Hc as (_ & _ & Hsplit).
    + intros Hsplit. unfold shuffle_in_place.
      destruct (collect_all_returns locations ∅ [] Hsplit) as [[all dirs] ->].
      simpl.
      destruct (if shuffleDirs then _ else _) as [dirs2 rnd2].
      destruct (if shuffleInDir then _ else _) as [all2 rnd3]. by eexists.
  - intros out rnd' H.
    apply shuffle_in_place_listing in H
      as (dirs & g & Hdirs & Hg & Hsorted & Hlen & ->).
    assert (∀ d x, x ∈ g d → dirOf x = d ∧ x ∈ locations) as Hmem.
    { intros d x. rewrite Hg. by intros ?%list_elem_of_filter. }
    split_and!.
    + rewrite length_take. lia.
    + intros x Hx%subseteq_take.
      apply list_elem_of_bind in Hx as (d & Hx & _). by apply (Hmem d).
    + intros Hsd. rewrite fmap_take. apply StronglySorted_take.
      apply (StronglySorted_fmap _ (λ a b, String.le (dirOf a) (dirOf b)));
        [done|].
      apply (StronglySorted_bind String.le); [by apply Hsorted| |].
      * intros d _. apply (StronglySorted_const _ _ _ d), Forall_forall.
        intros a Ha. by apply Hmem.
      * intros d1 d2 a b Hd Ha Hb.
        apply Hmem in Ha as [-> _]. by apply Hmem in Hb as [-> _].
Qed.

(** Where no two locations are in the same directory, the in-place variant
    leaves in the slice what the current [shuffle] returns, and fails as it
    fails. *)
Theorem shuffle_in_place_distinct_dirs srt locations shuffleDirs shuffleInDir
    rnd :
  NoDup (dirOf <$> locations) →
  shuffle_in_place srt locations shuffleDirs shuffleInDir rnd
  = shuffle srt locations shuffleDirs shuffleInDir rnd.
Proof.
  intros Hn.
  pose proof (collect_all_distinct locations ∅ [] Hn
                (λ l _, lookup_empty (dirOf l))) as Hc.
  destruct (collect locations ∅ []) as [[all dirs]| |] eqn:Hcol.
  - pose proof Hcol as [_ Hsplit]%(collect_grouped _ []);
      [|apply grouped_start].
    destruct (shuffle_returns srt locations shuffleDirs shuffleInDir rnd Hsplit)
      as [[out rnd'] Hs].
    rewrite Hs. unfold shuffle in Hs. unfold shuffle_in_place.
    rewrite Hc. rewrite Hcol in Hs. simpl in Hs |- *.
    destruct (if shuffleDirs then _ else _) as [dirs2 rnd2].
    destruct (if shuffleInDir then _ else _) as [all2 rnd3].
    case_decide as Hlen; [done|]. injection Hs as <- <-.
    rewrite copy_same_length; [done|].
    destruct (decide (length (flatten all2 dirs2) = length locations)); tauto.
  - unfold shuffle_in_place, shuffle. by rewrite Hc, Hcol.
  - unfold shuffle_in_place, shuffle. by rewrite Hc, Hcol.
Qed.

Lemma shuffle_in_place_distinct_dirs_witness :
  shuffle_in_place go_sort ["file:///B/x"; "file:///A/y"; "file:///C/z"]
    false false seed0
  = shuffle go_sort ["file:///B/x"; "file:///A/y"; "file:///C/z"]
      false false seed0.
Proof.
  apply shuffle_in_place_distinct_dirs.
  apply (bool_decide_unpack _). vm_compute. reflexivity.
Defined.

Lemma shuffle_in_place_contents_witness :
  length ["file:///A/1"; "file:///A/2"; "file:///A/1"] = length two_dirs ∧
  ["file:///A/1"; "file:///A/2"; "file:///A/1"] ⊆ two_dirs ∧
  StronglySorted String.le
    (dirOf <$> ["file:///A/1"; "file:///A/2"; "file:///A/1"]).
Proof.
  destruct (shuffle_in_place_contents go_sort two_dirs false false seed0)
    as [_ H].
  destruct (H ["file:///A/1"; "file:///A/2"; "file:///A/1"] seed0 eq_refl)
    as (H1 & H2 & H3).
  split_and!; [exact H1|exact H2|exact (H3 eq_refl)].
Defined.

(** ** Locations and their keys *)

Lemma QueryUnescape_unescaped s :
  unescaped s = true → url.QueryUnescape s = inl s.
Proof.
  intros Hs. unfold url.QueryUnescape.
  assert (url.malformed s = None ∧ url.decode s = s) as [-> ->]; [|done].
  induction s as [|c s IH]; [done|]. cbn [unescaped] in Hs.
  apply andb_prop in Hs as [[Hp%negb_true_iff Hq%negb_true_iff]%andb_prop Hs].
  cbn [url.malformed url.decode]. rewrite Hp, Hq.
  destruct (IH Hs) as [-> ->]. done.
Qed.

(** A location written without escapes, "file://" followed by a path that
    holds no '%' and no '+', stands for that path: [Location.Text] returns
    the path and [Location.Split] cuts it as [filepath.Split] does. *)
Theorem Text_unescaped (path : string) :
  unescaped path = true →
  Text ("file://" +:+ path) = Ok path ∧
  Split ("file://" +:+ path) = Ok (filepath.Split path).
Proof.
  intros Hp.
  assert (Text ("file://" +:+ path) = Ok path) as Ht.
  { apply Text_Ok. exists ("file://" +:+ path). split_and!.
    - apply QueryUnescape_unescaped. cbn. exact Hp.
    - simpl. lia.
    - simpl. change ("" +:+ path) with path.
      by rewrite Nat.sub_0_r, substring_all, substring_none. }
  split; [done|]. unfold Split. by rewrite Ht.
Qed.

Lemma Text_unescaped_witness :
  Text "file:///music/Artist/song.mp3" = Ok "/music/Artist/song.mp3" ∧
  Split "file:///music/Artist/song.mp3"
  = Ok (filepath.Split "/music/Artist/song.mp3").
Proof.
  apply (Text_unescaped "/music/Artist/song.mp3"). reflexivity.
Defined.

(** [Location.Split] returns exactly when [Location.Text] does, and the two
    keys it returns are the two parts of the text: joined they give it
    back, and the leaf name holds no separator. *)
Theorem Split_parts_of_Text (l : Location) :
  (returns (Split l) ↔ returns (Text l)) ∧
  ∀ dir file, Split l = Ok (dir, file) →
    Text l = Ok (dir +:+ file) ∧ has_separator file = false.
Proof.
  split.
  - split.
    + intros [[dir file] (text & Ht & _)%Split_Ok]. by exists text.
    + intros [text Ht]. unfold Split. rewrite Ht. by eexists.
  - intros dir file (text & Ht & Hs)%Split_Ok.
    by destruct (filepath_Split_spec _ _ _ Hs) as (<- & ? & _).
Qed.

Lemma Split_parts_of_Text_witness :
  Text "file://%2Fmusic%2FArtist%2Fsong.mp3"
  = Ok ("/music/Artist/" +:+ "song.mp3") ∧
  has_separator "song.mp3" = false.
Proof.
  destruct (Split_parts_of_Text "file://%2Fmusic%2FArtist%2Fsong.mp3")
    as [_ H].
  exact (H "/music/Artist/" "song.mp3" eq_refl).
Defined.
